(** * The remote read-only bolt protocol of [ethdb/remote/bolt_remote.go]

    A shallow embedding of the server dispatch loop ([Server]), the accept
    loop ([Listener]) and the client side ([NewDB], [DB.View], [Tx.Bucket]),
    followed by the properties of the protocol that the code satisfies. *)

From Stdlib Require Import ZArith Lia Sorted.
From Stdlib.Strings Require Import Byte.
From stdpp Require Import base option list gmap strings pretty relations.

Local Open Scope Z_scope.
Set Warnings "-clear-no-such-hyp".

(** ** Go values *)

(** A Go [[]byte]: [None] is the nil slice, [Some []] the empty one. *)
Global Instance byte_eq_dec : EqDecision Byte.byte := Byte.byte_eq_dec.

Definition bytes := list Byte.byte.
Definition gobytes := option bytes.

(** Go [error] values; the nil error is [None : option error]. *)
Inductive error :=
| EOF                      (* io.EOF *)
| Errorf (msg : string).   (* fmt.Errorf, and any other error, known by its text *)

Global Instance error_eq_dec : EqDecision error.
Proof. solve_decision. Defined.

(** [uint64] arithmetic: [x++] wraps around at 2^64. *)
Definition two64 : Z := 2 ^ 64.
Definition incr64 (x : Z) : Z := (x + 1) mod two64.

(** [fmt.Sprintf("%v", err)]. *)
Definition Sprintf_v (e : option error) : string :=
  match e with
  | None => "<nil>"
  | Some EOF => "EOF"
  | Some (Errorf m) => m
  end.

(** ** The frame codec

    The stream is a sequence of self-describing values.  [TBad] stands for
    bytes that no decoder accepts. *)
Inductive token :=
| TUint (n : Z)
| TBytes (b : gobytes)
| TText (s : string)
| TBad.

Global Instance token_eq_dec : EqDecision token.
Proof. unfold gobytes, bytes. solve_decision. Defined.

Definition decode_error : error := Errorf "decode error".
Definition write_error : error := Errorf "write error".

(** [decoder.Decode(&x)] for the three argument types of the protocol and
    for the one-byte command tag.  The end of the input is [io.EOF]; a value
    of another shape is a decode error and is consumed. *)
Definition Decode_uint (bound : Z) (d : list token) : (error + Z) * list token :=
  match d with
  | [] => (inl EOF, [])
  | TUint n :: d' =>
      if decide (0 <= n < bound) then (inr n, d') else (inl decode_error, d')
  | _ :: d' => (inl decode_error, d')
  end.

Definition Decode_uint64 := Decode_uint two64.
Definition Decode_uint8 := Decode_uint 256.

Definition Decode_bytes (d : list token) : (error + gobytes) * list token :=
  match d with
  | [] => (inl EOF, [])
  | TBytes b :: d' => (inr b, d')
  | _ :: d' => (inl decode_error, d')
  end.

Definition Decode_string (d : list token) : (error + string) * list token :=
  match d with
  | [] => (inl EOF, [])
  | TText s :: d' => (inr s, d')
  | _ :: d' => (inl decode_error, d')
  end.

(** An encoder on a writer that accepts [room] more values and then fails. *)
Record Encoder := { written : list token; room : nat }.

Definition Encode (v : token) (e : Encoder) : option error * Encoder :=
  match room e with
  | O => (Some write_error, e)
  | S r => (None, {| written := written e ++ [v]; room := r |})
  end.

(** ** Commands *)

Definition Version : Z := 1.

Inductive Command :=
| CmdVersion | CmdLastError | CmdBeginTx | CmdEndTx | CmdBucket
| CmdGet | CmdCursor | CmdSeek | CmdNext.

Global Instance Command_eq_dec : EqDecision Command.
Proof. solve_decision. Defined.

(** The [iota] numbering of the constants. *)
Definition tag (c : Command) : Z :=
  match c with
  | CmdVersion => 0 | CmdLastError => 1 | CmdBeginTx => 2 | CmdEndTx => 3
  | CmdBucket => 4 | CmdGet => 5 | CmdCursor => 6 | CmdSeek => 7 | CmdNext => 8
  end.

(** The [switch c] of the dispatch loop: [None] is its [default] case. *)
Definition Command_of (n : Z) : option Command :=
  match n with
  | 0 => Some CmdVersion | 1 => Some CmdLastError | 2 => Some CmdBeginTx
  | 3 => Some CmdEndTx | 4 => Some CmdBucket | 5 => Some CmdGet
  | 6 => Some CmdCursor | 7 => Some CmdSeek | 8 => Some CmdNext
  | _ => None
  end.

(** ** The embedded store

    [bolt.DB] and its transactions, buckets and cursors are an external
    library; the server only needs these operations.  The store's own state
    ([DB]) is threaded through [Begin] and [Rollback]; a cursor is a value
    that [Seek] and [Next] replace by the moved cursor. *)
Class Store := {
  DB : Type;
  BoltTx : Type;
  BoltBucket : Type;
  BoltCursor : Type;
  db_Begin : DB -> (error + BoltTx) * DB;
  tx_Rollback : BoltTx -> DB -> option error * DB;
  tx_Bucket : BoltTx -> gobytes -> option BoltBucket;
  bucket_Get : BoltBucket -> gobytes -> gobytes;
  bucket_Cursor : BoltBucket -> BoltCursor;
  cursor_Seek : BoltCursor -> gobytes -> (gobytes * gobytes) * BoltCursor;
  cursor_Next : BoltCursor -> (gobytes * gobytes) * BoltCursor
}.

(** The result of a piece of the loop body: [Fatal err] is a [return err]
    out of [Server]. *)
Inductive result (A : Type) :=
| Ok (a : A)
| Fatal (e : error).
Arguments Ok {A} a.
Arguments Fatal {A} e.

Section Server.
Context `{Store}.

(** ** Per-connection context: the local variables of [Server] *)
Record session := {
  lastError : option error;
  lastHandle : Z;
  transactions : gmap Z BoltTx;
  buckets : gmap Z BoltBucket;
  bucketsByTx : gmap Z (list Z);
  cursors : gmap Z BoltCursor;
  cursorsByBucket : gmap Z (list Z);
  deferred : list BoltTx;        (* the deferred rollbacks, last one first *)
  decoder : list token;
  encoder : Encoder;
  db : DB;
  closed : bool                  (* closer.Close() has run *)
}.

Definition set_lastError (e : option error) (s : session) : session :=
  {| lastError := e; lastHandle := lastHandle s; transactions := transactions s;
     buckets := buckets s; bucketsByTx := bucketsByTx s; cursors := cursors s;
     cursorsByBucket := cursorsByBucket s; deferred := deferred s;
     decoder := decoder s; encoder := encoder s; db := db s; closed := closed s |}.

Definition set_lastHandle (h : Z) (s : session) : session :=
  {| lastError := lastError s; lastHandle := h; transactions := transactions s;
     buckets := buckets s; bucketsByTx := bucketsByTx s; cursors := cursors s;
     cursorsByBucket := cursorsByBucket s; deferred := deferred s;
     decoder := decoder s; encoder := encoder s; db := db s; closed := closed s |}.

Definition set_transactions (m : gmap Z BoltTx) (s : session) : session :=
  {| lastError := lastError s; lastHandle := lastHandle s; transactions := m;
     buckets := buckets s; bucketsByTx := bucketsByTx s; cursors := cursors s;
     cursorsByBucket := cursorsByBucket s; deferred := deferred s;
     decoder := decoder s; encoder := encoder s; db := db s; closed := closed s |}.

Definition set_buckets (m : gmap Z BoltBucket) (s : session) : session :=
  {| lastError := lastError s; lastHandle := lastHandle s; transactions := transactions s;
     buckets := m; bucketsByTx := bucketsByTx s; cursors := cursors s;
     cursorsByBucket := cursorsByBucket s; deferred := deferred s;
     decoder := decoder s; encoder := encoder s; db := db s; closed := closed s |}.

Definition set_bucketsByTx (m : gmap Z (list Z)) (s : session) : session :=
  {| lastError := lastError s; lastHandle := lastHandle s; transactions := transactions s;
     buckets := buckets s; bucketsByTx := m; cursors := cursors s;
     cursorsByBucket := cursorsByBucket s; deferred := deferred s;
     decoder := decoder s; encoder := encoder s; db := db s; closed := closed s |}.

Definition set_cursors (m : gmap Z BoltCursor) (s : session) : session :=
  {| lastError := lastError s; lastHandle := lastHandle s; transactions := transactions s;
     buckets := buckets s; bucketsByTx := bucketsByTx s; cursors := m;
     cursorsByBucket := cursorsByBucket s; deferred := deferred s;
     decoder := decoder s; encoder := encoder s; db := db s; closed := closed s |}.

Definition set_cursorsByBucket (m : gmap Z (list Z)) (s : session) : session :=
  {| lastError := lastError s; lastHandle := lastHandle s; transactions := transactions s;
     buckets := buckets s; bucketsByTx := bucketsByTx s; cursors := cursors s;
     cursorsByBucket := m; deferred := deferred s;
     decoder := decoder s; encoder := encoder s; db := db s; closed := closed s |}.

Definition set_deferred (l : list BoltTx) (s : session) : session :=
  {| lastError := lastError s; lastHandle := lastHandle s; transactions := transactions s;
     buckets := buckets s; bucketsByTx := bucketsByTx s; cursors := cursors s;
     cursorsByBucket := cursorsByBucket s; deferred := l;
     decoder := decoder s; encoder := encoder s; db := db s; closed := closed s |}.

Definition set_decoder (d : list token) (s : session) : session :=
  {| lastError := lastError s; lastHandle := lastHandle s; transactions := transactions s;
     buckets := buckets s; bucketsByTx := bucketsByTx s; cursors := cursors s;
     cursorsByBucket := cursorsByBucket s; deferred := deferred s;
     decoder := d; encoder := encoder s; db := db s; closed := closed s |}.

Definition set_encoder (e : Encoder) (s : session) : session :=
  {| lastError := lastError s; lastHandle := lastHandle s; transactions := transactions s;
     buckets := buckets s; bucketsByTx := bucketsByTx s; cursors := cursors s;
     cursorsByBucket := cursorsByBucket s; deferred := deferred s;
     decoder := decoder s; encoder := e; db := db s; closed := closed s |}.

Definition set_db (d : DB) (s : session) : session :=
  {| lastError := lastError s; lastHandle := lastHandle s; transactions := transactions s;
     buckets := buckets s; bucketsByTx := bucketsByTx s; cursors := cursors s;
     cursorsByBucket := cursorsByBucket s; deferred := deferred s;
     decoder := decoder s; encoder := encoder s; db := d; closed := closed s |}.

Definition set_closed (b : bool) (s : session) : session :=
  {| lastError := lastError s; lastHandle := lastHandle s; transactions := transactions s;
     buckets := buckets s; bucketsByTx := bucketsByTx s; cursors := cursors s;
     cursorsByBucket := cursorsByBucket s; deferred := deferred s;
     decoder := decoder s; encoder := encoder s; db := db s; closed := b |}.

(** ** A state-and-error monad for the body of the loop

    On [Fatal] the session reached so far is kept, because the deferred
    calls still run on it. *)

Definition M (A : Type) : Type := session -> result A * session.

Definition bind {A B} (m : M A) (k : A -> M B) : M B :=
  fun s => match m s with
           | (Ok a, s') => k a s'
           | (Fatal e, s') => (Fatal e, s')
           end.

Notation "'do' x <- m ; k" := (bind m (fun x => k))
  (at level 10, x name, m at level 100, k at level 200).
Notation "m ;; k" := (bind m (fun _ => k))
  (at level 100, k at level 200, right associativity).

(** [if err := decoder.Decode(&x); err != nil { return err }] *)
Definition decode {A} (dec : list token -> (error + A) * list token) : M A :=
  fun s => match dec (decoder s) with
           | (inr a, d) => (Ok a, set_decoder d s)
           | (inl e, d) => (Fatal e, set_decoder d s)
           end.

(** A decode whose error is only logged: the variable keeps its zero value
    and execution goes on. *)
Definition decode_logged {A} (dec : list token -> (error + A) * list token)
    (zero : A) : M A :=
  fun s => match dec (decoder s) with
           | (inr a, d) => (Ok a, set_decoder d s)
           | (inl _, d) => (Ok zero, set_decoder d s)
           end.

(** [if err := encoder.Encode(&x); err != nil { return err }] *)
Definition encode (v : token) : M unit :=
  fun s => match Encode v (encoder s) with
           | (None, e) => (Ok tt, set_encoder e s)
           | (Some err, e) => (Fatal err, set_encoder e s)
           end.

(** ** The cases of the dispatch switch *)

Definition doVersion : M unit := encode (TUint Version).

Definition doLastError : M unit :=
  fun s => encode (TText (Sprintf_v (lastError s))) s.

Definition doBeginTx : M unit :=
  fun s =>
    let '(r, db') := db_Begin (db s) in
    match r with
    | inr tx =>
        let txHandle := incr64 (lastHandle s) in
        encode (TUint txHandle)
          (set_transactions (<[txHandle := tx]> (transactions s))
             (set_lastHandle txHandle
                (set_deferred (tx :: deferred s)
                   (set_lastError None (set_db db' s)))))
    | inl err =>
        encode (TUint 0) (set_lastError (Some err) (set_db db' s))
    end.

(** The inner loops of the [CmdEndTx] case. *)
Definition remove_cursors (cursorHandles : list Z) (cs : gmap Z BoltCursor)
    : gmap Z BoltCursor :=
  foldl (fun cs cursorHandle => delete cursorHandle cs) cs cursorHandles.

Definition remove_bucket (s : session) (bucketHandle : Z) : session :=
  let s1 :=
    match cursorsByBucket s !! bucketHandle with
    | Some cursorHandles =>
        set_cursorsByBucket (delete bucketHandle (cursorsByBucket s))
          (set_cursors (remove_cursors cursorHandles (cursors s)) s)
    | None => s
    end in
  set_buckets (delete bucketHandle (buckets s1)) s1.

Definition remove_buckets (txHandle : Z) (s : session) : session :=
  match bucketsByTx s !! txHandle with
  | Some bucketHandles =>
      let s1 := foldl remove_bucket s bucketHandles in
      set_bucketsByTx (delete txHandle (bucketsByTx s1)) s1
  | None => s
  end.

Definition doEndTx : M unit :=
  do txHandle <- decode Decode_uint64;
  fun s =>
    match transactions s !! txHandle with
    | Some tx =>
        let s1 := remove_buckets txHandle s in
        match tx_Rollback tx (db s1) with
        | (Some err, db') => (Fatal err, set_db db' s1)
        | (None, db') =>
            (Ok tt, set_lastError None
                      (set_transactions (delete txHandle (transactions s1))
                         (set_db db' s1)))
        end
    | None => (Ok tt, set_lastError (Some (Errorf "transaction not found")) s)
    end.

Definition doBucket : M unit :=
  do txHandle <- decode Decode_uint64;
  do name <- decode Decode_bytes;
  fun s =>
    match transactions s !! txHandle with
    | Some tx =>
        match tx_Bucket tx name with
        | None => encode (TUint 0) (set_lastError (Some (Errorf "bucket not found")) s)
        | Some bucket =>
            let bucketHandle := incr64 (lastHandle s) in
            let byTx :=
              match bucketsByTx s !! txHandle with
              | Some bucketHandles => <[txHandle := bucketHandles ++ [bucketHandle]]> (bucketsByTx s)
              | None => <[txHandle := [bucketHandle]]> (bucketsByTx s)
              end in
            encode (TUint bucketHandle)
              (set_lastError None
                 (set_bucketsByTx byTx
                    (set_buckets (<[bucketHandle := bucket]> (buckets s))
                       (set_lastHandle bucketHandle s))))
        end
    | None => encode (TUint 0) (set_lastError (Some (Errorf "transaction not found")) s)
    end.

Definition doGet : M unit :=
  do bucketHandle <- decode Decode_uint64;
  do key <- decode Decode_bytes;
  fun s =>
    match buckets s !! bucketHandle with
    | Some bucket => encode (TBytes (bucket_Get bucket key)) (set_lastError None s)
    | None => encode (TBytes None) (set_lastError (Some (Errorf "bucket not found")) s)
    end.

Definition doCursor : M unit :=
  do bucketHandle <- decode Decode_uint64;
  fun s =>
    match buckets s !! bucketHandle with
    | Some bucket =>
        let cursor := bucket_Cursor bucket in
        let cursorHandle := incr64 (lastHandle s) in
        let byBucket :=
          match cursorsByBucket s !! bucketHandle with
          | Some cursorHandles => <[bucketHandle := cursorHandles ++ [cursorHandle]]> (cursorsByBucket s)
          | None => <[bucketHandle := [cursorHandle]]> (cursorsByBucket s)
          end in
        encode (TUint cursorHandle)
          (set_lastError None
             (set_cursorsByBucket byBucket
                (set_cursors (<[cursorHandle := cursor]> (cursors s))
                   (set_lastHandle cursorHandle s))))
    | None => encode (TUint 0) (set_lastError (Some (Errorf "bucket not found")) s)
    end.

Definition doSeek : M unit :=
  do cursorHandle <- decode Decode_uint64;
  do seekKey <- decode Decode_bytes;
  fun s =>
    match cursors s !! cursorHandle with
    | Some cursor =>
        let '((key, value), cursor') := cursor_Seek cursor seekKey in
        (encode (TBytes key) ;; encode (TBytes value))
          (set_lastError None (set_cursors (<[cursorHandle := cursor']> (cursors s)) s))
    | None =>
        (encode (TBytes None) ;; encode (TBytes None))
          (set_lastError (Some (Errorf "cursor not found")) s)
    end.

(** [for numberOfKeys > 0 { ... numberOfKeys-- ... }]: the cursor is moved
    in place, so the moved cursor is returned also when an encode fails. *)
Fixpoint Next_loop (numberOfKeys : nat) (cursor : BoltCursor) (e : Encoder)
    : option error * BoltCursor * Encoder :=
  match numberOfKeys with
  | O => (None, cursor, e)
  | S numberOfKeys' =>
      let '((key, value), cursor') := cursor_Next cursor in
      match Encode (TBytes key) e with
      | (Some err, e1) => (Some err, cursor', e1)
      | (None, e1) =>
          match Encode (TBytes value) e1 with
          | (Some err, e2) => (Some err, cursor', e2)
          | (None, e2) =>
              match key with
              | None => (None, cursor', e2)
              | Some _ => Next_loop numberOfKeys' cursor' e2
              end
          end
      end
  end.

Definition doNext : M unit :=
  do cursorHandle <- decode Decode_uint64;
  do numberOfKeys <- decode_logged Decode_uint64 0;
  fun s =>
    match cursors s !! cursorHandle with
    | Some cursor =>
        let '(r, cursor', e) := Next_loop (Z.to_nat numberOfKeys) cursor (encoder s) in
        let s1 := set_encoder e (set_cursors (<[cursorHandle := cursor']> (cursors s)) s) in
        match r with
        | Some err => (Fatal err, s1)
        | None => (Ok tt, set_lastError None s1)
        end
    | None => (Ok tt, set_lastError (Some (Errorf "cursor not found")) s)
    end.

Definition exec (c : Command) : M unit :=
  match c with
  | CmdVersion => doVersion
  | CmdLastError => doLastError
  | CmdBeginTx => doBeginTx
  | CmdEndTx => doEndTx
  | CmdBucket => doBucket
  | CmdGet => doGet
  | CmdCursor => doCursor
  | CmdSeek => doSeek
  | CmdNext => doNext
  end.

(** ** The dispatch loop *)

(** One turn of the [for] loop: the loop goes on, or [Server] returns. *)
Inductive outcome :=
| Continue (s : session)
| Return (r : option error) (s : session).

Definition step (s : session) : outcome :=
  match Decode_uint8 (decoder s) with
  | (inl EOF, d) => Return None (set_decoder d s)
  | (inl err, d) => Return (Some err) (set_decoder d s)
  | (inr c, d) =>
      match Command_of c with
      | Some cmd =>
          match exec cmd (set_decoder d s) with
          | (Ok _, s') => Continue s'
          | (Fatal err, s') => Return (Some err) s'
          end
      | None => Return (Some (Errorf ("unknown command " +:+ pretty c))) (set_decoder d s)
      end
  end.

(** The deferred calls, run on every return: the rollbacks of all the
    transactions ever begun, last one first (their errors are only logged),
    then [closer.Close()]. *)
Definition run_deferred (s : session) : session :=
  let db' := foldl (fun d tx => snd (tx_Rollback tx d)) (db s) (deferred s) in
  set_closed true (set_deferred [] (set_db db' s)).

Fixpoint Server_loop (fuel : nat) (s : session) : option (option error * session) :=
  match fuel with
  | O => None
  | S fuel' =>
      match step s with
      | Continue s' => Server_loop fuel' s'
      | Return r s' => Some (r, run_deferred s')
      end
  end.

Definition new_session (d : DB) (input : list token) (out : Encoder) : session :=
  {| lastError := None; lastHandle := 0; transactions := ∅; buckets := ∅;
     bucketsByTx := ∅; cursors := ∅; cursorsByBucket := ∅; deferred := [];
     decoder := input; encoder := out; db := d; closed := false |}.

(** Every turn of the loop that goes on has consumed a command tag, so the
    length of the input bounds the number of turns. *)
Definition Server (d : DB) (input : list token) (out : Encoder)
    : option (option error * session) :=
  Server_loop (S (length input)) (new_session d input out).

End Server.

(** ** The accept loop of [Listener]

    What the loop meets: each call of [ln.Accept()] fails or yields a
    connection, and after a connection the [select] finds a value on
    [interruptCh] or takes its [default] case. *)
Inductive accepted :=
| AcceptError
| AcceptConn (conn : nat) (interrupt : bool).

Inductive action :=
| LogAcceptError
| GoServer (conn : nat)
| LogInterrupted
| CloseListener.

Global Instance action_eq_dec : EqDecision action.
Proof. solve_decision. Defined.

(** How control leaves a statement inside the [for] body. *)
Inductive control := GoOn | BreakFor.

(** [if interruptCh != nil { select { case <-interruptCh: ...; break
    default: } }].  The [break] is inside the [select], so it ends the
    [select] and control goes on after it. *)
Definition poll_interrupt (hasCh interrupt : bool) : list action * control :=
  if hasCh then
    if interrupt then ([LogInterrupted], GoOn) else ([], GoOn)
  else ([], GoOn).

(** The [for] loop on the calls of [Accept] that are answered, with what it
    does; the boolean tells whether the loop was left (and the listener
    closed) or is blocked in the next [Accept]. *)
Fixpoint Listener_loop (hasCh : bool) (env : list accepted) : list action * bool :=
  match env with
  | [] => ([], false)
  | AcceptError :: env' =>
      let '(acts, stopped) := Listener_loop hasCh env' in
      (LogAcceptError :: acts, stopped)
  | AcceptConn conn interrupt :: env' =>
      match poll_interrupt hasCh interrupt with
      | (log, GoOn) =>
          let '(acts, stopped) := Listener_loop hasCh env' in
          (GoServer conn :: log ++ acts, stopped)
      | (log, BreakFor) => (GoServer conn :: log ++ [CloseListener], true)
      end
  end.

(** [Listener]: it returns at once if [net.Listen] fails. *)
Definition Listener (listenOk hasCh : bool) (env : list accepted) : list action * bool :=
  if listenOk then Listener_loop hasCh env else ([], true).

(** ** The client *)
Module Client.

(** [DB] holds the two ends of the connection: what is still to be read
    and the encoder state of what was written. *)
Record DB := { in_ : list token; out : Encoder }.

Record Tx := { txHandle : Z }.
Record Bucket := { bucketHandle : Z }.

Definition client_encode (v : token) (db : DB) : option error * DB :=
  let '(r, e) := Encode v (out db) in (r, {| in_ := in_ db; out := e |}).

Definition client_decode {A} (dec : list token -> (error + A) * list token)
    (db : DB) : (error + A) * DB :=
  let '(r, d) := dec (in_ db) in (r, {| in_ := d; out := out db |}).

(** [NewDB]: the version handshake. *)
Definition NewDB (input : list token) (output : Encoder) : option error * DB :=
  let db0 := {| in_ := input; out := output |} in
  match client_encode (TUint (tag CmdVersion)) db0 with
  | (Some err, db1) => (Some err, db1)
  | (None, db1) =>
      match client_decode Decode_uint64 db1 with
      | (inl err, db2) => (Some err, db2)
      | (inr v, db2) =>
          if decide (v = Version) then (None, db2)
          else (Some (Errorf ("returned version " +:+ pretty v +:+ ", expected "
                                +:+ pretty Version)), db2)
      end
  end.

(** [DB.View]: the closure [f] may use the connection as well. *)
Definition View (f : Tx -> DB -> option error * DB) (db : DB) : option error * DB :=
  match client_encode (TUint (tag CmdBeginTx)) db with
  | (Some err, db1) => (Some err, db1)
  | (None, db1) =>
      match client_decode Decode_uint64 db1 with
      | (inl err, db2) => (Some err, db2)
      | (inr txHandle, db2) =>
          if decide (txHandle = 0) then
            match client_encode (TUint (tag CmdLastError)) db2 with
            | (Some err, db3) => (Some err, db3)
            | (None, db3) =>
                match client_decode Decode_string db3 with
                | (inl err, db4) => (Some err, db4)
                | (inr lastErrorStr, db4) => (Some (Errorf lastErrorStr), db4)
                end
            end
          else
            let tx := {| txHandle := txHandle |} in
            let '(opErr, db3) := f tx db2 in
            match client_encode (TUint (tag CmdEndTx)) db3 with
            | (Some err, db4) => (Some err, db4)
            | (None, db4) =>
                match client_encode (TUint txHandle) db4 with
                | (Some err, db5) => (Some err, db5)
                | (None, db5) => (opErr, db5)
                end
            end
      end
  end.

(** [Tx.Bucket]. *)
Definition Tx_Bucket (tx : Tx) (name : gobytes) : option Bucket := None.

End Client.

(** ** An in-memory store

    A store to run the server on: a database is a list of named buckets, a
    bucket a list of pairs in key order, a transaction a snapshot of the
    database, a cursor the bucket with the index it stands on. *)
Module MemStore.

Definition byte_ltb (a b : Byte.byte) : bool := (Byte.to_N a <? Byte.to_N b)%N.

Fixpoint bytes_leb (a b : bytes) : bool :=
  match a, b with
  | [], _ => true
  | _ :: _, [] => false
  | x :: a', y :: b' =>
      if byte_ltb x y then true
      else if byte_ltb y x then false
      else bytes_leb a' b'
  end.

Definition pairs := list (bytes * bytes).

Record memdb := { open : bool; content : list (bytes * pairs) }.
Record memcursor := { items : pairs; pos : nat }.

Definition slice (b : gobytes) : bytes := default [] b.

Definition lookup_name {A} (name : bytes) (l : list (bytes * A)) : option A :=
  snd <$> List.find (fun p => bool_decide (fst p = name)) l.

Definition at_pos (c : memcursor) : gobytes * gobytes :=
  match items c !! pos c with
  | Some (k, v) => (Some k, Some v)
  | None => (None, None)
  end.

Fixpoint seek_index (key : bytes) (l : pairs) : nat :=
  match l with
  | [] => O
  | (k, _) :: l' => if bytes_leb key k then O else S (seek_index key l')
  end.

Global Instance mem : Store := {|
  DB := memdb;
  BoltTx := list (bytes * pairs);
  BoltBucket := pairs;
  BoltCursor := memcursor;
  db_Begin d :=
    if open d then (inr (content d), d) else (inl (Errorf "database not open"), d);
  tx_Rollback tx d := (None, d);
  tx_Bucket tx name := lookup_name (slice name) tx;
  bucket_Get b key := lookup_name (slice key) b;
  bucket_Cursor b := {| items := b; pos := O |};
  cursor_Seek c key :=
    let c' := {| items := items c; pos := seek_index (slice key) (items c) |} in
    (at_pos c', c');
  cursor_Next c :=
    let c' := {| items := items c; pos := S (pos c) |} in
    (at_pos c', c')
|}.

Definition b (s : string) : bytes := String.list_byte_of_string s.

(** The database of the scenarios: one bucket, "data". *)
Definition testdb : memdb :=
  {| open := true;
     content := [(b "data", [(b "a", b "1"); (b "b", b "2"); (b "c", b "3")])] |}.

Definition unlimited : Encoder := {| written := []; room := 1000 |}.

End MemStore.

(** ** What a client observes of a session *)
Section Observations.
Context `{Store}.

(** One turn of the loop that goes on. *)
Definition steps_to (s s' : session) : Prop := step s = Continue s'.

(** The command tag at the head of the input, if it is a known one. *)
Definition next_command (s : session) : option Command :=
  match Decode_uint8 (decoder s) with
  | (inr c, _) => Command_of c
  | (inl _, _) => None
  end.

(** The values written during a turn from [s] to [s']. *)
Definition reply (s s' : session) : list token :=
  drop (length (written (encoder s))) (written (encoder s')).

(** The handle a turn gives to the client: the reply of a [BeginTx],
    [Bucket] or [Cursor] that succeeded, with the command that made it. *)
Definition handle_returned (s s' : session) : option (Command * Z) :=
  match next_command s, lastError s', reply s s' with
  | Some CmdBeginTx, None, [TUint h] => Some (CmdBeginTx, h)
  | Some CmdBucket, None, [TUint h] => Some (CmdBucket, h)
  | Some CmdCursor, None, [TUint h] => Some (CmdCursor, h)
  | _, _, _ => None
  end.

(** All the handles given to the client in the turns of the loop. *)
Fixpoint returned_handles (fuel : nat) (s : session) : list (Command * Z) :=
  match fuel with
  | O => []
  | S fuel' =>
      match step s with
      | Continue s' => option_list (handle_returned s s') ++ returned_handles fuel' s'
      | Return _ _ => []
      end
  end.

Definition Server_handles (d : DB) (input : list token) (out : Encoder)
    : list (Command * Z) :=
  returned_handles (S (length input)) (new_session d input out).

(** [k] moves of a cursor, with the pairs it yields. *)
Fixpoint advance (k : nat) (cursor : BoltCursor)
    : list (gobytes * gobytes) * BoltCursor :=
  match k with
  | O => ([], cursor)
  | S k' =>
      let '(kv, cursor') := cursor_Next cursor in
      let '(l, cursor'') := advance k' cursor' in
      (kv :: l, cursor'')
  end.

Definition pair_tokens (l : list (gobytes * gobytes)) : list token :=
  flat_map (fun kv => [TBytes (fst kv); TBytes (snd kv)]) l.

(** The first argument of the command being executed, when it is a handle,
    and its second, when it is a byte string. *)
Definition arg_handle (s : session) : Z :=
  match decoder s with
  | TUint h :: _ => h
  | _ => 0
  end.

Definition arg_bytes (s : session) : gobytes :=
  match decoder s with
  | _ :: TBytes b :: _ => b
  | _ => None
  end.

(** The value of [lastError] after each command, as the protocol
    description gives it. *)
Definition lastError_after (c : Command) (s : session) : option error :=
  match c with
  | CmdVersion | CmdLastError => lastError s
  | CmdBeginTx =>
      match fst (db_Begin (db s)) with
      | inl err => Some err
      | inr _ => None
      end
  | CmdEndTx =>
      match transactions s !! arg_handle s with
      | Some _ => None
      | None => Some (Errorf "transaction not found")
      end
  | CmdBucket =>
      match transactions s !! arg_handle s with
      | Some tx =>
          match tx_Bucket tx (arg_bytes s) with
          | Some _ => None
          | None => Some (Errorf "bucket not found")
          end
      | None => Some (Errorf "transaction not found")
      end
  | CmdGet | CmdCursor =>
      match buckets s !! arg_handle s with
      | Some _ => None
      | None => Some (Errorf "bucket not found")
      end
  | CmdSeek | CmdNext =>
      match cursors s !! arg_handle s with
      | Some _ => None
      | None => Some (Errorf "cursor not found")
      end
  end.

(** A turn of the loop on a [Version] or [LastError] command. *)
Definition quiet_step (s s' : session) : Prop :=
  steps_to s s' /\
  (next_command s = Some CmdVersion \/ next_command s = Some CmdLastError).

(** The allocated handles stay below the counter, and the counter cannot
    wrap around on what is left of the input. *)
Definition handles_bounded (s : session) : Prop :=
  0 <= lastHandle s /\
  lastHandle s + Z.of_nat (length (decoder s)) < two64 /\
  (forall t l b, bucketsByTx s !! t = Some l -> b ∈ l -> b <= lastHandle s) /\
  (forall b l c, cursorsByBucket s !! b = Some l -> c ∈ l -> c <= lastHandle s).

(** Handles that were released and that the counter has passed. *)
Definition released (b c : Z) (s : session) : Prop :=
  buckets s !! b = None /\ cursors s !! c = None /\
  b <= lastHandle s /\ c <= lastHandle s /\
  0 <= lastHandle s /\
  lastHandle s + Z.of_nat (length (decoder s)) < two64.

(** The session after [n] turns of the loop, and whether the loop went on
    at each of them. *)
Fixpoint after (n : nat) (s : session) : session :=
  match n with
  | O => s
  | S n' =>
      match step s with
      | Continue s' => after n' s'
      | Return _ s' => s'
      end
  end.

Fixpoint goes_on (n : nat) (s : session) : bool :=
  match n with
  | O => true
  | S n' =>
      match step s with
      | Continue s' => goes_on n' s'
      | Return _ _ => false
      end
  end.

(** [s'] is [s] with some buckets and cursors removed. *)
Definition shrinks (s s' : session) : Prop :=
  cursors s' ⊆ cursors s /\ buckets s' ⊆ buckets s /\
  cursorsByBucket s' ⊆ cursorsByBucket s /\ bucketsByTx s' ⊆ bucketsByTx s /\
  transactions s' = transactions s /\ lastHandle s' = lastHandle s /\
  decoder s' = decoder s /\ encoder s' = encoder s /\ db s' = db s /\
  lastError s' = lastError s /\ deferred s' = deferred s.

(** What one turn may do to the tables: every handle of [s'] was one of
    [s], but for at most one new handle, the next value of the counter. *)
Definition frame (s s' : session) : Prop :=
  (length (decoder s') <= length (decoder s))%nat /\
  (lastHandle s' = lastHandle s \/ lastHandle s' = incr64 (lastHandle s)) /\
  (forall b, is_Some (buckets s' !! b) ->
     is_Some (buckets s !! b) \/ lastHandle s' = incr64 (lastHandle s) /\ b = lastHandle s') /\
  (forall c, is_Some (cursors s' !! c) ->
     is_Some (cursors s !! c) \/ lastHandle s' = incr64 (lastHandle s) /\ c = lastHandle s') /\
  (forall t l b, bucketsByTx s' !! t = Some l -> b ∈ l ->
     (exists l0, bucketsByTx s !! t = Some l0 /\ b ∈ l0)
     \/ lastHandle s' = incr64 (lastHandle s) /\ b = lastHandle s') /\
  (forall b l c, cursorsByBucket s' !! b = Some l -> c ∈ l ->
     (exists l0, cursorsByBucket s !! b = Some l0 /\ c ∈ l0)
     \/ lastHandle s' = incr64 (lastHandle s) /\ c = lastHandle s').

(** The shape of a reply: the type of each of its values. *)
Inductive kind := KUint | KBytes | KText | KBad.

Definition shape (v : token) : kind :=
  match v with
  | TUint _ => KUint
  | TBytes _ => KBytes
  | TText _ => KText
  | TBad => KBad
  end.

(** The shape of the reply of each command with a reply of fixed size. *)
Definition reply_shape (c : Command) : list kind :=
  match c with
  | CmdVersion | CmdBeginTx | CmdBucket | CmdCursor => [KUint]
  | CmdLastError => [KText]
  | CmdEndTx | CmdNext => []
  | CmdGet => [KBytes]
  | CmdSeek => [KBytes; KBytes]
  end.

End Observations.

(** ** Sessions on the in-memory store *)
Module Scenario.
Import MemStore.

Definition data_cursor : memcursor :=
  {| items := [(b "a", b "1"); (b "b", b "2"); (b "c", b "3")]; pos := O |}.

(** [BeginTx], [Bucket(1, "data")], [Cursor(2)]: the handles 1, 2 and 3. *)
Definition open_cursor : list token :=
  [TUint 2; TUint 4; TUint 1; TBytes (Some (b "data")); TUint 6; TUint 2].

Definition opened (then_ : list token) : session :=
  after 3 (new_session testdb (open_cursor ++ then_) unlimited).

(** Then [EndTx(1)], [Version], [Seek(3, "")]. *)
Definition cascade : list token :=
  open_cursor ++ [TUint 3; TUint 1; TUint 0; TUint 7; TUint 3; TBytes (Some [])].

Definition cascade_after (n : nat) : session :=
  after n (new_session testdb cascade unlimited).

(** A [Next] on the handle 7, which names nothing, with the input ending
    where the count should be. *)
Definition truncated_next : list token := [TUint 8; TUint 7].

End Scenario.

(** ** Invariants of the tables of a session *)
Section Invariants.
Context `{Store}.

(** [h] names a transaction, a bucket or a cursor. *)
Definition registered (s : session) (h : Z) : Prop :=
  is_Some (transactions s !! h) \/ is_Some (buckets s !! h) \/
  is_Some (cursors s !! h).

(** The registered handles lie between 1 and the counter, a handle names
    one kind of resource only, and the counter cannot wrap around on what is
    left of the input. *)
Definition tables_fresh (s : session) : Prop :=
  0 <= lastHandle s /\
  lastHandle s + Z.of_nat (length (decoder s)) < two64 /\
  (forall h, registered s h -> 1 <= h <= lastHandle s) /\
  (forall h, is_Some (transactions s !! h) -> is_Some (buckets s !! h) -> False) /\
  (forall h, is_Some (transactions s !! h) -> is_Some (cursors s !! h) -> False) /\
  (forall h, is_Some (buckets s !! h) -> is_Some (cursors s !! h) -> False).

(** Every bucket is recorded under an open transaction and every cursor
    under a registered bucket. *)
Definition no_orphans (s : session) : Prop :=
  (forall b, is_Some (buckets s !! b) ->
     exists t l, is_Some (transactions s !! t) /\
                 bucketsByTx s !! t = Some l /\ b ∈ l) /\
  (forall c, is_Some (cursors s !! c) ->
     exists b l, is_Some (buckets s !! b) /\
                 cursorsByBucket s !! b = Some l /\ c ∈ l).

(** Every open transaction has its rollback deferred. *)
Definition deferred_covers (s : session) : Prop :=
  forall h tx, transactions s !! h = Some tx -> tx ∈ deferred s.

(** What a turn may add to the three tables: nothing, or the next value of
    the counter in one of them. *)
Definition adds_nothing {A} (m m' : gmap Z A) : Prop :=
  forall h, is_Some (m' !! h) -> is_Some (m !! h).

Definition adds_at {A} (h0 : Z) (m m' : gmap Z A) : Prop :=
  forall h, is_Some (m' !! h) -> is_Some (m !! h) \/ h = h0.

Definition allocation (s s' : session) : Prop :=
  (lastHandle s' = lastHandle s /\
   adds_nothing (transactions s) (transactions s') /\
   adds_nothing (buckets s) (buckets s') /\
   adds_nothing (cursors s) (cursors s'))
  \/
  (lastHandle s' = incr64 (lastHandle s) /\
   ((adds_at (lastHandle s') (transactions s) (transactions s') /\
     adds_nothing (buckets s) (buckets s') /\
     adds_nothing (cursors s) (cursors s'))
    \/
    (adds_nothing (transactions s) (transactions s') /\
     adds_at (lastHandle s') (buckets s) (buckets s') /\
     adds_nothing (cursors s) (cursors s'))
    \/
    (adds_nothing (transactions s) (transactions s') /\
     adds_nothing (buckets s) (buckets s') /\
     adds_at (lastHandle s') (cursors s) (cursors s')))).

(** The state that the commands which only read leave alone. *)
Definition same_tables (s s' : session) : Prop :=
  lastHandle s' = lastHandle s /\ transactions s' = transactions s /\
  buckets s' = buckets s /\ bucketsByTx s' = bucketsByTx s /\
  cursorsByBucket s' = cursorsByBucket s /\ deferred s' = deferred s /\
  db s' = db s /\ dom (cursors s') = dom (cursors s).

(** The cursors recorded under the buckets of a list. *)
Definition cursor_of (s : session) (bhs : list Z) (c : Z) : Prop :=
  exists b chs, b ∈ bhs /\ cursorsByBucket s !! b = Some chs /\ c ∈ chs.

(** [b] is a bucket of the transaction [t]: in the session that began at
    [init] and has reached [s], a [Bucket] command on [t] has given the
    handle [b] to the client.  Likewise [c] is a cursor of the bucket [b]. *)
Definition bucket_of (init : session) (t b : Z) (s : session) : Prop :=
  exists sB sB' rest,
    rtc steps_to init sB /\
    decoder sB = TUint (tag CmdBucket) :: TUint t :: rest /\
    step sB = Continue sB' /\
    handle_returned sB sB' = Some (CmdBucket, b) /\
    rtc steps_to sB' s.

Definition cursor_of_bucket (init : session) (b c : Z) (s : session) : Prop :=
  exists sC sC' rest,
    rtc steps_to init sC /\
    decoder sC = TUint (tag CmdCursor) :: TUint b :: rest /\
    step sC = Continue sC' /\
    handle_returned sC sC' = Some (CmdCursor, c) /\
    rtc steps_to sC' s.

(** In [s] the buckets of [t] and their cursors, as they were when the
    session had reached [s0], name nothing. *)
Definition descendants_gone (init s0 : session) (t : Z) (s : session) : Prop :=
  (forall b, bucket_of init t b s0 -> buckets s !! b = None) /\
  (forall b c, bucket_of init t b s0 -> cursor_of_bucket init b c s0 ->
     cursors s !! c = None).

End Invariants.

(** ** The connections the accept loop meets and serves *)

Definition accepted_conns (env : list accepted) : list nat :=
  omap (fun a => match a with
                 | AcceptConn conn _ => Some conn
                 | AcceptError => None
                 end) env.

Definition served_conns (acts : list action) : list nat :=
  omap (fun a => match a with
                 | GoServer conn => Some conn
                 | _ => None
                 end) acts.

(** ** The pools of decoders and encoders

    [decoderPool] and [encoderPool] are buffered channels of capacity 128,
    used without blocking.  A codec object is known by its identity and the
    stream it is set on; [allocated] counts the objects that
    [codec.NewDecoder] has made. *)
Module Pool.
Section Pool.
Context {R : Type}.

Record Coder := { ident : nat; stream : R }.

Definition capacity : nat := 128.

Record pool := { chan : list Coder; allocated : nat }.

(** [newDecoder]: the oldest object of the channel, reset on [r], or a new
    object if the channel is empty. *)
Definition newDecoder (r : R) (p : pool) : Coder * pool :=
  match chan p with
  | d :: rest =>
      ({| ident := ident d; stream := r |},
       {| chan := rest; allocated := allocated p |})
  | [] =>
      ({| ident := allocated p; stream := r |},
       {| chan := []; allocated := S (allocated p) |})
  end.

(** [returnDecoderToPool]: the object is sent on the channel, or dropped if
    the channel is full. *)
Definition returnDecoderToPool (d : Coder) (p : pool) : pool :=
  if decide (length (chan p) < capacity)%nat
  then {| chan := chan p ++ [d]; allocated := allocated p |}
  else p.

(** [newEncoder] and [returnEncoderToPool] are the same code on
    [encoderPool]. *)
Definition newEncoder := newDecoder.
Definition returnEncoderToPool := returnDecoderToPool.

(** The users of a pool: one takes an object for a stream, or the holder of
    the [i]-th object in use gives it back. *)
Inductive use :=
| Take (r : R)
| GiveBack (i : nat).

Fixpoint uses (l : list use) (p : pool) (hand : list Coder) : pool * list Coder :=
  match l with
  | [] => (p, hand)
  | Take r :: l' =>
      let '(d, p') := newDecoder r p in uses l' p' (hand ++ [d])
  | GiveBack i :: l' =>
      match hand !! i with
      | Some d => uses l' (returnDecoderToPool d p) (delete i hand)
      | None => uses l' p hand
      end
  end.

Definition empty_pool : pool := {| chan := []; allocated := O |}.

(** The channel is within its capacity, and no object is twice in the
    channel or in use. *)
Definition pool_ok (p : pool) (hand : list Coder) : Prop :=
  (length (chan p) <= capacity)%nat /\
  NoDup (ident <$> (chan p ++ hand)) /\
  Forall (fun d => (ident d < allocated p)%nat) (chan p ++ hand).

End Pool.
End Pool.

(** ** More sessions on the in-memory store *)
Module MoreScenarios.
Import MemStore Scenario.

(** A database that is not open: [Begin] fails on it. *)
Definition closeddb : memdb := {| open := false; content := [] |}.

(** A writer that takes no value. *)
Definition full_writer : Encoder := {| written := []; room := 0 |}.

(** After the handles 1, 2 and 3: a [Get] on the handle 9, which names
    nothing, and a [LastError]. *)
Definition unknown_get : session :=
  opened [TUint 5; TUint 9; TBytes None; TUint 1].

(** After [BeginTx]: [Bucket(1, "data")] and [Get(2, "a")]. *)
Definition begun_get : session :=
  after 1 (new_session testdb
             [TUint 2; TUint 4; TUint 1; TBytes (Some (b "data"));
              TUint 5; TUint 2; TBytes (Some (b "a"))] unlimited).

(** After [BeginTx] and [Bucket(1, "data")]: [Cursor(2)], [Seek(3, "")]
    and [Next(3, 5)]. *)
Definition bucket_walk : session :=
  after 2 (new_session testdb
             [TUint 2; TUint 4; TUint 1; TBytes (Some (b "data"));
              TUint 6; TUint 2; TUint 7; TUint 3; TBytes (Some []);
              TUint 8; TUint 3; TUint 5] unlimited).

(** After the handles 1, 2 and 3: [Bucket(1, "data")], which gives the
    handle 4, a bucket that gets no cursor; then [EndTx(1)], [Get(4, "a")]
    and [Seek(3, "")]. *)
Definition two_buckets : list token :=
  open_cursor ++
  [TUint 4; TUint 1; TBytes (Some (b "data")); TUint 3; TUint 1;
   TUint 5; TUint 4; TBytes (Some (b "a")); TUint 7; TUint 3; TBytes (Some [])].

Definition two_buckets_after (n : nat) : session :=
  after n (new_session testdb two_buckets unlimited).

End MoreScenarios.

(** * Properties *)

(** ** The client *)
Section ClientProperties.
Import Client.

(** C10: for every transaction wrapper and every bucket name, [Tx.Bucket]
    returns the nil bucket, and it has no access to the connection: a [View]
    whose closure calls [Tx.Bucket] behaves on the stream as one whose
    closure does not, so no command is written for it. *)
Theorem Tx_Bucket_always_nil :
  (forall (tx : Tx) (name : gobytes), Tx_Bucket tx name = None) /\
  (forall (name : gobytes) (db : DB),
     View (fun tx c => (match Tx_Bucket tx name with
                        | Some _ => None
                        | None => Some (Errorf "no bucket")
                        end, c)) db
     = View (fun _ c => (Some (Errorf "no bucket"), c)) db).
Proof.
  split; [reflexivity|].
  intros name db. reflexivity.
Qed.

Lemma client_encode_ok v db r :
  room (out db) = S r ->
  client_encode v db
  = (None, {| in_ := in_ db; out := {| written := written (out db) ++ [v]; room := r |} |}).
Proof. intros Hr. unfold client_encode, Encode. rewrite Hr. reflexivity. Qed.

(** C7: [View] sends [BeginTx] and decodes the handle.  On the handle 0 it
    sends [LastError], decodes the text and returns it as the error, whatever
    the closure is (the closure is not run).  On any other handle it runs the
    closure on the wrapper of the handle, then sends [EndTx] and the handle,
    whatever the closure returned, and returns the closure's error. *)
Theorem View_protocol (f : Tx -> DB -> option error * DB) (db : DB)
    (h : Z) (rest : list token) (r : nat) :
  in_ db = TUint h :: rest ->
  0 <= h < two64 ->
  room (out db) = S r ->
  let db2 := {| in_ := rest;
                out := {| written := written (out db) ++ [TUint (tag CmdBeginTx)];
                          room := r |} |} in
  (h = 0 ->
   forall msg rest' r', rest = TText msg :: rest' -> r = S r' ->
     View f db
     = (Some (Errorf msg),
        {| in_ := rest';
           out := {| written := written (out db)
                                ++ [TUint (tag CmdBeginTx); TUint (tag CmdLastError)];
                     room := r' |} |})) /\
  (h <> 0 ->
   forall opErr db3 r3,
     f {| txHandle := h |} db2 = (opErr, db3) ->
     room (out db3) = S (S r3) ->
     View f db
     = (opErr,
        {| in_ := in_ db3;
           out := {| written := written (out db3) ++ [TUint (tag CmdEndTx); TUint h];
                     room := r3 |} |})).
Proof.
  intros Hin Hh Hr db2. subst db2.
  unfold View. rewrite (client_encode_ok _ _ r Hr).
  unfold client_decode; cbn [in_ out]. rewrite Hin.
  unfold Decode_uint64, Decode_uint. rewrite decide_True by done.
  split.
  - intros -> msg rest' r' -> ->. rewrite decide_True by done.
    rewrite (client_encode_ok _ _ r') by reflexivity.
    cbn. rewrite <- app_assoc. reflexivity.
  - intros Hne opErr db3 r3 Hf Hr3. rewrite decide_False by done.
    rewrite Hf.
    rewrite (client_encode_ok _ _ (S r3) Hr3).
    rewrite (client_encode_ok _ _ r3) by reflexivity.
    cbn. rewrite <- app_assoc. reflexivity.
Qed.

Lemma View_protocol_witness :
  View (fun _ c => (Some (Errorf "closure failed"), c))
       {| in_ := [TUint 1]; out := {| written := []; room := 3 |} |}
  = (Some (Errorf "closure failed"),
     {| in_ := [];
        out := {| written := [TUint 2; TUint 3; TUint 1]; room := 0 |} |}) /\
  View (fun _ c => (None, c))
       {| in_ := [TUint 0; TText "database not open"];
          out := {| written := []; room := 2 |} |}
  = (Some (Errorf "database not open"),
     {| in_ := []; out := {| written := [TUint 2; TUint 1]; room := 0 |} |}).
Proof.
  split.
  - refine (proj2 (View_protocol (fun _ c => (Some (Errorf "closure failed"), c))
              {| in_ := [TUint 1]; out := {| written := []; room := 3 |} |}
              1 [] 2%nat _ _ _) _ (Some (Errorf "closure failed"))
              {| in_ := []; out := {| written := [TUint 2]; room := 2 |} |} 0%nat _ _).
    + reflexivity.
    + unfold two64. lia.
    + reflexivity.
    + lia.
    + reflexivity.
    + reflexivity.
  - refine (proj1 (View_protocol (fun _ c => (None, c))
              {| in_ := [TUint 0; TText "database not open"];
                 out := {| written := []; room := 2 |} |}
              0 [TText "database not open"] 1%nat _ _ _) _
              "database not open" [] 0%nat _ _).
    + reflexivity.
    + unfold two64. lia.
    + reflexivity.
    + reflexivity.
    + reflexivity.
    + reflexivity.
Defined.

End ClientProperties.

(** ** The accept loop *)

Lemma poll_interrupt_goes_on hasCh interrupt :
  snd (poll_interrupt hasCh interrupt) = GoOn.
Proof. destruct hasCh, interrupt; reflexivity. Qed.

(** C9, as the code has it: whatever arrives on [interruptCh], the accept
    loop is never left and the listener never closed; a connection accepted
    after the interruption is served like any other. *)
Theorem Listener_never_leaves_loop :
  (forall hasCh env,
     snd (Listener true hasCh env) = false /\
     CloseListener ∉ fst (Listener true hasCh env)) /\
  Listener true true [AcceptConn 1 true; AcceptConn 2 false]
  = ([GoServer 1; LogInterrupted; GoServer 2], false).
Proof.
  split; [|reflexivity].
  intros hasCh env. unfold Listener.
  induction env as [|[|conn interrupt] env IH]; cbn.
  - split; [done|]. apply not_elem_of_nil.
  - destruct (Listener_loop hasCh env) as [acts stopped]. cbn in *.
    destruct IH as [IH1 IH2]. split; [done|].
    rewrite not_elem_of_cons. done.
  - pose proof (poll_interrupt_goes_on hasCh interrupt) as Hp.
    destruct (poll_interrupt hasCh interrupt) as [log ctl] eqn:Hpoll. cbn in Hp. subst ctl.
    destruct (Listener_loop hasCh env) as [acts stopped]. cbn in *.
    destruct IH as [IH1 IH2]. split; [done|].
    rewrite not_elem_of_cons, not_elem_of_app. split; [done|]. split; [|done].
    unfold poll_interrupt in Hpoll.
    destruct hasCh, interrupt; simplify_eq;
      rewrite ?not_elem_of_cons; repeat split; try done; apply not_elem_of_nil.
Qed.

(** ** The server *)
Section ServerProperties.
Context `{Store}.

Lemma step_cmd (c : Command) (s : session) (rest : list token) :
  decoder s = TUint (tag c) :: rest ->
  step s = match exec c (set_decoder rest s) with
           | (Ok _, s') => Continue s'
           | (Fatal err, s') => Return (Some err) s'
           end.
Proof. intros Hd. unfold step. rewrite Hd. destruct c; reflexivity. Qed.

Lemma decode_uint64_ok (h : Z) (rest : list token) (s : session) :
  0 <= h < two64 ->
  decoder s = TUint h :: rest ->
  decode Decode_uint64 s = (Ok h, set_decoder rest s).
Proof.
  intros Hh Hd. unfold decode, Decode_uint64, Decode_uint. rewrite Hd.
  rewrite decide_True by done. reflexivity.
Qed.

Lemma decode_logged_uint64_ok (h : Z) (rest : list token) (s : session) :
  0 <= h < two64 ->
  decoder s = TUint h :: rest ->
  decode_logged Decode_uint64 0 s = (Ok h, set_decoder rest s).
Proof.
  intros Hh Hd. unfold decode_logged, Decode_uint64, Decode_uint. rewrite Hd.
  rewrite decide_True by done. reflexivity.
Qed.

Lemma reply_same (s s' : session) :
  written (encoder s') = written (encoder s) -> reply s s' = [].
Proof. intros Hw. unfold reply. rewrite Hw. apply drop_all. Qed.

Lemma reply_app (s s' : session) (l : list token) :
  written (encoder s') = written (encoder s) ++ l -> reply s s' = l.
Proof. intros Hw. unfold reply. rewrite Hw. apply drop_app_length. Qed.

(** C8: [Next] with the count 0 on a known cursor writes nothing, leaves
    the cursor where it stands and sets [lastError] to nil. *)
Theorem Next_zero_emits_nothing (s : session) (h : Z) (cursor : BoltCursor)
    (rest : list token) :
  decoder s = TUint (tag CmdNext) :: TUint h :: TUint 0 :: rest ->
  0 <= h < two64 ->
  cursors s !! h = Some cursor ->
  exists s',
    step s = Continue s' /\
    reply s s' = [] /\
    encoder s' = encoder s /\
    cursors s' = cursors s /\
    cursors s' !! h = Some cursor /\
    lastError s' = None.
Proof.
  intros Hd Hh Hc.
  rewrite (step_cmd CmdNext s _ Hd). cbn [exec]. unfold doNext, bind.
  rewrite (decode_uint64_ok h (TUint 0 :: rest)) by done.
  rewrite (decode_logged_uint64_ok 0 rest) by (unfold two64; done).
  cbn [cursors set_decoder]. rewrite Hc.
  change (Z.to_nat 0) with O. cbn [Next_loop].
  eexists. split; [reflexivity|]. cbn.
  rewrite (insert_id _ _ _ Hc).
  split; [by apply reply_same|]. done.
Qed.

Lemma Next_loop_spec (n : nat) : forall (cursor : BoltCursor) (e : Encoder),
  (2 * n <= room e)%nat ->
  exists (k : nat) (pairs : list (gobytes * gobytes)) (cursor' : BoltCursor),
    advance k cursor = (pairs, cursor') /\
    Next_loop n cursor e
    = (None, cursor',
       {| written := written e ++ pair_tokens pairs; room := room e - 2 * k |}) /\
    length pairs = k /\
    (k <= n)%nat /\
    ((0 < n)%nat -> (0 < k)%nat) /\
    (forall i kv, pairs !! i = Some kv -> (S i < k)%nat -> is_Some (fst kv)) /\
    ((k < n)%nat -> exists v, last pairs = Some (None, v)).
Proof.
  induction n as [|n IH]; intros cursor e Hroom.
  - exists O, [], cursor. cbn. rewrite app_nil_r, Nat.sub_0_r.
    destruct e; cbn. repeat split; try done; lia.
  - cbn [Next_loop].
    destruct (cursor_Next cursor) as [[key value] cursor1] eqn:Hnext.
    unfold Encode at 1.
    destruct (room e) as [|[|r]] eqn:Hr; [lia|lia|].
    unfold Encode; cbn [room written].
    destruct key as [key|].
    + destruct (IH cursor1 {| written := (written e ++ [TBytes (Some key)]) ++ [TBytes value];
                              room := r |}) as (k & pairs & cursor' & Hadv & Hloop & Hlen & Hk & Hpos & Hkeys & Hlast).
      { cbn. lia. }
      exists (S k), ((Some key, value) :: pairs), cursor'.
      cbn [advance]. rewrite Hnext, Hadv, Hloop. cbn [written room].
      split; [done|]. split.
      { f_equal. f_equal; [|lia]. cbn. rewrite <- !app_assoc. reflexivity. }
      split; [cbn; lia|]. split; [lia|]. split; [lia|]. split.
      * intros [|i] kv Hkv Hi; cbn in Hkv.
        -- simplify_eq. cbn. eauto.
        -- apply (Hkeys i kv Hkv). lia.
      * intros Hlt. destruct Hlast as [v Hv]; [lia|]. exists v.
        destruct pairs as [|p pairs]; [done|]. exact Hv.
    + exists 1%nat, [(None, value)], cursor1.
      cbn [advance]. rewrite Hnext. cbn.
      split; [done|]. split.
      { f_equal. f_equal; [|lia]. rewrite <- !app_assoc. reflexivity. }
      split; [done|]. split; [lia|]. split; [lia|]. split.
      * intros i kv Hkv Hi. lia.
      * intros _. eauto.
Qed.

Lemma step_Next_known (s : session) (h n : Z) (cursor : BoltCursor)
    (rest : list token) :
  decoder s = TUint (tag CmdNext) :: TUint h :: TUint n :: rest ->
  0 <= h < two64 ->
  0 < n < two64 ->
  cursors s !! h = Some cursor ->
  (2 * Z.to_nat n <= room (encoder s))%nat ->
  exists (k : nat) (pairs : list (gobytes * gobytes)) (cursor' : BoltCursor)
         (s' : session),
    step s = Continue s' /\
    advance k cursor = (pairs, cursor') /\
    reply s s' = pair_tokens pairs /\
    length pairs = k /\
    (1 <= k <= Z.to_nat n)%nat /\
    (forall i kv, pairs !! i = Some kv -> (S i < k)%nat -> is_Some (fst kv)) /\
    ((k < Z.to_nat n)%nat -> exists v, last pairs = Some (None, v)) /\
    cursors s' !! h = Some cursor' /\
    lastError s' = None.
Proof.
  intros Hd Hh Hn Hc Hroom.
  destruct (Next_loop_spec (Z.to_nat n) cursor (encoder s) Hroom)
    as (k & pairs & cursor' & Hadv & Hloop & Hlen & Hk & Hpos & Hkeys & Hlast).
  rewrite (step_cmd CmdNext s _ Hd). cbn [exec]. unfold doNext, bind.
  rewrite (decode_uint64_ok h (TUint n :: rest)) by done.
  rewrite (decode_logged_uint64_ok n rest) by first [lia | reflexivity].
  cbn [cursors encoder set_decoder]. rewrite Hc, Hloop.
  exists k, pairs, cursor'. eexists. split; [reflexivity|].
  split; [done|]. split; [by apply reply_app|]. split; [done|].
  split; [lia|]. split; [done|]. split; [done|]. cbn.
  split; [apply lookup_insert_eq|done].
Qed.

(** C5: [Next] with a count [n > 0] on a known cursor, on a writer that
    takes the [2 * n] values: the reply is the [k] pairs that [k] moves of
    the cursor yield, one after the other, with [1 <= k <= n]; every pair
    before the last has a key; if [k < n] the last pair has the nil key (so
    the nil pair is sent, once, and the loop stops), otherwise [k = n]; the
    cursor stays where the moves left it and [lastError] is nil. *)
Theorem Next_emits_pairs (s : session) (h n : Z) (cursor : BoltCursor)
    (rest : list token) :
  decoder s = TUint (tag CmdNext) :: TUint h :: TUint n :: rest ->
  0 <= h < two64 ->
  0 < n < two64 ->
  cursors s !! h = Some cursor ->
  (2 * Z.to_nat n <= room (encoder s))%nat ->
  exists (k : nat) (pairs : list (gobytes * gobytes)) (cursor' : BoltCursor)
         (s' : session),
    step s = Continue s' /\
    advance k cursor = (pairs, cursor') /\
    reply s s' = pair_tokens pairs /\
    length pairs = k /\
    (1 <= k <= Z.to_nat n)%nat /\
    (forall i kv, pairs !! i = Some kv -> (S i < k)%nat -> is_Some (fst kv)) /\
    ((k < Z.to_nat n)%nat -> exists v, last pairs = Some (None, v)) /\
    cursors s' !! h = Some cursor' /\
    lastError s' = None.
Proof. apply step_Next_known. Qed.

Ltac unfold_exec :=
  unfold exec, doVersion, doLastError, doBeginTx, doEndTx, doBucket, doGet,
    doCursor, doSeek, doNext, bind, decode, decode_logged, encode,
    Decode_uint64, Decode_uint8, Decode_uint, Decode_bytes, Encode in *.

Lemma exec_lastError (c : Command) (s s' : session) :
  exec c s = (Ok tt, s') -> lastError s' = lastError_after c s.
Proof.
  intros He. unfold lastError_after, arg_handle, arg_bytes.
  destruct c; unfold_exec;
    repeat (case_match; simplify_eq; cbn in * ); simplify_eq; cbn in *;
    try done; try congruence.
Qed.

Lemma quiet_step_lastError (s s' : session) :
  quiet_step s s' -> lastError s' = lastError s.
Proof.
  intros [Hstep Hcmd]. unfold steps_to, step in Hstep. unfold next_command in Hcmd.
  destruct (Decode_uint8 (decoder s)) as [[err|c] d]; [destruct Hcmd; done|].
  destruct (Command_of c) as [cmd|]; [|destruct Hcmd; done].
  destruct (exec cmd (set_decoder d s)) as [[[]|err] s1] eqn:He; simplify_eq.
  apply exec_lastError in He.
  destruct Hcmd; simplify_eq; exact He.
Qed.

(** C6: after a command that did not end the session, [lastError] is what
    the protocol description says: unchanged by [Version] and [LastError];
    nil on the success path and the not-found error on the failure path of
    [EndTx], [Bucket], [Get], [Cursor], [Seek] and [Next].  Hence any number
    of [Version] and [LastError] commands leaves [lastError] as the last
    other command set it. *)
Theorem lastError_frame :
  (forall (c : Command) (s s' : session),
     exec c s = (Ok tt, s') -> lastError s' = lastError_after c s) /\
  (forall (s s' : session), rtc quiet_step s s' -> lastError s' = lastError s).
Proof.
  split; [exact exec_lastError|].
  intros s s' Hsteps. induction Hsteps as [|s1 s2 s3 Hq _ IH]; [done|].
  rewrite IH. by apply quiet_step_lastError.
Qed.

(** [Next] with a count [n > 0]: on an unknown cursor handle the reply is
    empty, while on a known one it has at least the two values of the first
    pair. *)
Lemma step_Next_reply_differs (s : session) (h n : Z) (rest : list token) :
  decoder s = TUint (tag CmdNext) :: TUint h :: TUint n :: rest ->
  0 <= h < two64 ->
  0 < n < two64 ->
  (2 * Z.to_nat n <= room (encoder s))%nat ->
  (cursors s !! h = None ->
   exists s', step s = Continue s' /\ reply s s' = [] /\
              lastError s' = Some (Errorf "cursor not found")) /\
  (forall cursor, cursors s !! h = Some cursor ->
   exists s', step s = Continue s' /\ (2 <= length (reply s s'))%nat /\
              lastError s' = None).
Proof.
  intros Hd Hh Hn Hroom. split.
  - intros Hc.
    rewrite (step_cmd CmdNext s _ Hd). cbn [exec]. unfold doNext, bind.
    rewrite (decode_uint64_ok h (TUint n :: rest)) by done.
    rewrite (decode_logged_uint64_ok n rest) by first [lia | reflexivity].
    cbn [cursors set_decoder]. rewrite Hc.
    eexists. split; [reflexivity|]. split; [by apply reply_same|done].
  - intros cursor Hc.
    destruct (step_Next_known s h n cursor rest Hd Hh Hn Hc Hroom)
      as (k & pairs & cursor' & s' & Hstep & _ & Hreply & Hlen & Hk & _ & _ & _ & Herr).
    exists s'. split; [done|]. split; [|done].
    rewrite Hreply. destruct pairs as [|p pairs]; cbn in *; lia.
Qed.

(** Whatever error the decoding of [numberOfKeys] meets, the turn of the
    loop goes on with what the decoder left of the input. *)
Lemma step_Next_count_error (s : session) (h : Z)
    (bad : list token) (err : error) :
  decoder s = TUint (tag CmdNext) :: TUint h :: bad ->
  0 <= h < two64 ->
  fst (Decode_uint64 bad) = inl err ->
  exists s', step s = Continue s' /\ decoder s' = snd (Decode_uint64 bad).
Proof.
  intros Hd Hh Hbad.
  rewrite (step_cmd CmdNext s _ Hd). cbn [exec]. unfold doNext, bind.
  rewrite (decode_uint64_ok h bad) by done.
  unfold decode_logged. cbn [decoder set_decoder].
  destruct (Decode_uint64 bad) as [[e|n] d]; [|done]. cbn [snd].
  cbn [cursors set_decoder].
  destruct (cursors s !! h) as [cursor|].
  - change (Z.to_nat 0) with O. cbn [Next_loop].
    eexists. split; [reflexivity|]. reflexivity.
  - eexists. split; [reflexivity|]. reflexivity.
Qed.

(** The decode errors that do end the session: the handle of every command
    that has one, and the byte string of [Bucket], [Get] and [Seek]. *)
Lemma handle_decode_error_fatal (c : Command) (s : session)
    (bad : list token) (err : error) :
  c ∈ [CmdEndTx; CmdBucket; CmdGet; CmdCursor; CmdSeek; CmdNext] ->
  decoder s = TUint (tag c) :: bad ->
  fst (Decode_uint64 bad) = inl err ->
  step s = Return (Some err) (set_decoder (snd (Decode_uint64 bad)) s).
Proof.
  intros Hc Hd Hbad. rewrite (step_cmd c s _ Hd).
  destruct (Decode_uint64 bad) as [[e|n] d] eqn:Hdec; [|done].
  cbn in Hbad. simplify_eq.
  repeat (apply elem_of_cons in Hc as [->|Hc]); [..|by apply elem_of_nil in Hc];
    cbn [exec]; unfold doEndTx, doBucket, doGet, doCursor, doSeek, doNext, bind, decode;
    cbn [decoder set_decoder]; rewrite Hdec; reflexivity.
Qed.

Lemma bytes_decode_error_fatal (c : Command) (s : session) (h : Z)
    (bad : list token) (err : error) :
  c ∈ [CmdBucket; CmdGet; CmdSeek] ->
  decoder s = TUint (tag c) :: TUint h :: bad ->
  0 <= h < two64 ->
  fst (Decode_bytes bad) = inl err ->
  step s = Return (Some err) (set_decoder (snd (Decode_bytes bad)) s).
Proof.
  intros Hc Hd Hh Hbad. rewrite (step_cmd c s _ Hd).
  destruct (Decode_bytes bad) as [[e|n] d] eqn:Hdec; [|done].
  cbn in Hbad. simplify_eq.
  repeat (apply elem_of_cons in Hc as [->|Hc]); [..|by apply elem_of_nil in Hc];
    cbn [exec]; unfold doBucket, doGet, doSeek, bind;
    rewrite (decode_uint64_ok h bad) by done;
    unfold decode; cbn [decoder set_decoder]; rewrite Hdec; reflexivity.
Qed.

(** *** The cascade of [EndTx] only removes *)

Lemma shrinks_refl (s : session) : shrinks s s.
Proof. unfold shrinks. repeat split; done. Qed.

Lemma shrinks_trans (s1 s2 s3 : session) :
  shrinks s1 s2 -> shrinks s2 s3 -> shrinks s1 s3.
Proof.
  unfold shrinks. intros (?&?&?&?&?&?&?&?&?&?&?) (?&?&?&?&?&?&?&?&?&?&?).
  repeat split; try (etrans; eassumption); congruence.
Qed.

Lemma remove_cursors_subseteq (l : list Z) : forall (cs : gmap Z BoltCursor),
  remove_cursors l cs ⊆ cs.
Proof.
  unfold remove_cursors. induction l as [|c l IH]; intros cs; cbn; [done|].
  etrans; [apply IH|]. apply delete_subseteq.
Qed.

Lemma remove_bucket_shrinks (s : session) (b : Z) : shrinks s (remove_bucket s b).
Proof.
  unfold shrinks, remove_bucket.
  destruct (cursorsByBucket s !! b) as [l|]; cbn;
    repeat split; try done;
    first [apply delete_subseteq | apply remove_cursors_subseteq].
Qed.

Lemma foldl_remove_bucket_shrinks (l : list Z) : forall (s : session),
  shrinks s (foldl remove_bucket s l).
Proof.
  induction l as [|b l IH]; intros s; cbn; [apply shrinks_refl|].
  eapply shrinks_trans; [apply remove_bucket_shrinks|apply IH].
Qed.

Lemma remove_buckets_shrinks (t : Z) (s : session) : shrinks s (remove_buckets t s).
Proof.
  unfold remove_buckets. destruct (bucketsByTx s !! t) as [l|]; [|apply shrinks_refl].
  pose proof (foldl_remove_bucket_shrinks l s) as Hs. revert Hs.
  generalize (foldl remove_bucket s l). intros s1.
  unfold shrinks. intros (?&?&?&?&?&?&?&?&?&?&?). cbn.
  repeat split; try done. etrans; [apply delete_subseteq|done].
Qed.

(** The replies of the commands other than [Next] have one shape, on the
    success path and on the not-found paths alike. *)
Lemma reply_shape_fixed (c : Command) (s s' : session) :
  c <> CmdNext ->
  exec c s = (Ok tt, s') ->
  shape <$> reply s s' = reply_shape c.
Proof.
  intros Hc He. unfold reply.
  destruct c; try done; unfold_exec;
    repeat (case_match; simplify_eq; cbn in * ); simplify_eq; cbn in *;
    rewrite <- ?app_assoc, ?drop_app_length, ?drop_all; try done.
  match goal with
  | |- context [remove_buckets ?t ?s0] =>
      destruct (remove_buckets_shrinks t s0) as (_&_&_&_&_&_&_&He&_)
  end.
  rewrite He. cbn. by rewrite drop_all.
Qed.

Ltac frame_table :=
  let x := fresh "x" in let Hx := fresh "Hx" in
  intros x Hx;
  first
    [ left; exact Hx
    | left; destruct Hx as [? Hx]; eexists; eapply lookup_weaken; eassumption
    | match type of Hx with
      | is_Some (<[?k:=_]> _ !! _) =>
          destruct (decide (x = k)) as [->|];
          [ first [right; done | left; eauto]
          | rewrite lookup_insert_ne in Hx by done; left; exact Hx ]
      end ].

Ltac frame_index :=
  let t := fresh "t" in let l := fresh "l" in let x := fresh "x" in
  let Hl := fresh "Hl" in let Hx := fresh "Hx" in
  intros t l x Hl Hx;
  first
    [ left; eauto; fail
    | left; eexists; split; [eapply lookup_weaken; eassumption|done]
    | match type of Hl with
      | <[?k:=_]> _ !! _ = _ =>
          destruct (decide (t = k)) as [->|];
          [ rewrite lookup_insert_eq in Hl; simplify_eq;
            first
              [ apply elem_of_app in Hx as [Hx|Hx%list_elem_of_singleton];
                [left; eauto | right; done]
              | apply list_elem_of_singleton in Hx; right; done ]
          | rewrite lookup_insert_ne in Hl by done; left; eauto ]
      end ].

Lemma exec_frame (c : Command) (s s' : session) :
  exec c s = (Ok tt, s') -> frame s s'.
Proof.
  intros He.
  destruct c; unfold_exec;
    repeat (case_match; simplify_eq; cbn in * ); simplify_eq; cbn in *.
  all: unfold frame; cbn.
  all: try match goal with
  | |- context [remove_buckets ?t ?s0] =>
      destruct (remove_buckets_shrinks t s0) as (Hs1&Hs2&Hs3&Hs4&Hs5&Hs6&Hs7&Hs8&Hs9&Hs10&Hs11); cbn in *
  end.
  all: split; [repeat match goal with Hd : decoder _ = _ |- _ => rewrite Hd end; cbn; lia|].
  all: split; [auto|].
  all: split; [frame_table|].
  all: split; [frame_table|].
  all: split; frame_index.
Qed.

Lemma step_inv (s s' : session) :
  step s = Continue s' ->
  exists (c : Command) (v : token) (d : list token),
    decoder s = v :: d /\ next_command s = Some c /\
    exec c (set_decoder d s) = (Ok tt, s').
Proof.
  unfold step, next_command, Decode_uint8, Decode_uint. intros Hstep.
  destruct (decoder s) as [|v d] eqn:Hd; [done|].
  destruct v as [n| | |]; try done.
  destruct (decide (0 <= n < 256)); [|done]. cbn in *.
  destruct (Command_of n) as [c|]; [|done].
  destruct (exec c (set_decoder d s)) as [[[]|err] s1] eqn:He; simplify_eq.
  eauto 6.
Qed.

Lemma step_frame (s s' : session) :
  step s = Continue s' ->
  frame s s' /\ (length (decoder s') < length (decoder s))%nat.
Proof.
  intros (c & v & d & Hd & _ & He)%step_inv.
  apply exec_frame in He. unfold frame in *. cbn in He.
  destruct He as (Hlen & Hrest). rewrite Hd. cbn. split; [|lia].
  split; [lia|exact Hrest].
Qed.

Lemma incr64_small (x : Z) : 0 <= x -> x + 1 < two64 -> incr64 x = x + 1.
Proof. intros. unfold incr64. apply Z.mod_small. lia. Qed.

(** *** The handles given out *)

Lemma exec_handle (c : Command) (s s' : session) :
  exec c s = (Ok tt, s') ->
  (lastHandle s' = lastHandle s /\
   (c ∈ [CmdBeginTx; CmdBucket; CmdCursor] -> is_Some (lastError s')))
  \/
  (lastHandle s' = incr64 (lastHandle s) /\
   c ∈ [CmdBeginTx; CmdBucket; CmdCursor] /\
   lastError s' = None /\
   reply s s' = [TUint (incr64 (lastHandle s))]).
Proof.
  intros He. unfold reply.
  destruct c; unfold_exec;
    repeat (case_match; simplify_eq; cbn in * ); simplify_eq; cbn in *;
    rewrite ?drop_app_length;
    try (right; repeat split; try done; set_solver);
    try (left; split; [done|]; intros Hin; first [by eauto | set_solver]).
  left. split; [|set_solver].
  match goal with
  | |- context [remove_buckets ?t ?s0] =>
      destruct (remove_buckets_shrinks t s0) as (_&_&_&_&_&Hl&_)
  end. exact Hl.
Qed.

Lemma step_handle (s s' : session) :
  step s = Continue s' ->
  (handle_returned s s' = None /\ lastHandle s' = lastHandle s)
  \/
  (exists c, handle_returned s s' = Some (c, incr64 (lastHandle s)) /\
             c ∈ [CmdBeginTx; CmdBucket; CmdCursor] /\
             lastHandle s' = incr64 (lastHandle s)).
Proof.
  intros (c & v & d & Hd & Hc & He)%step_inv.
  unfold handle_returned. rewrite Hc.
  destruct (exec_handle _ _ _ He) as [[Hl Herr]|(Hl & Hin & Herr & Hreply)].
  - left. split; [|exact Hl].
    destruct c; try done;
      (destruct Herr as [e He']; [set_solver|]; rewrite He'; done).
  - right. exists c. split; [|done].
    unfold reply in *. cbn in Hreply. rewrite Herr, Hreply.
    destruct c; try done; set_solver.
Qed.

Lemma seq_shift_fmap (x : Z) (n : nat) :
  (fun i => x + 1 + Z.of_nat i) <$> seq 1 n = (fun i => x + Z.of_nat i) <$> seq 2 n.
Proof.
  rewrite <- (fmap_S_seq 1), <- list_fmap_compose.
  apply list_fmap_ext. intros i j _. cbn. lia.
Qed.

Lemma returned_handles_spec (fuel : nat) : forall (s : session),
  0 <= lastHandle s ->
  lastHandle s + Z.of_nat (length (decoder s)) < two64 ->
  (returned_handles fuel s).*2
  = (fun i => lastHandle s + Z.of_nat i) <$> seq 1 (length (returned_handles fuel s)) /\
  Forall (fun p => fst p ∈ [CmdBeginTx; CmdBucket; CmdCursor]) (returned_handles fuel s).
Proof.
  induction fuel as [|fuel IH]; intros s Hpos Hroom; cbn; [done|].
  destruct (step s) as [s'|] eqn:Hstep; [|done].
  destruct (step_frame _ _ Hstep) as [_ Hlen].
  destruct (step_handle _ _ Hstep) as [[-> Hl]|(c & -> & Hc & Hl)]; cbn.
  - rewrite <- Hl. apply IH; lia.
  - rewrite incr64_small in * by lia.
    destruct (IH s') as [IH1 IH2]; [lia|lia|].
    split; [|by constructor].
    f_equal. rewrite IH1, Hl. apply seq_shift_fmap.
Qed.

(** Without a bound on the input, the handles are the successive values of
    the 64-bit counter. *)
Lemma returned_handles_wrap (fuel : nat) : forall (s : session),
  (returned_handles fuel s).*2
  = (fun i => (lastHandle s + Z.of_nat i) mod two64)
      <$> seq 1 (length (returned_handles fuel s)).
Proof.
  induction fuel as [|fuel IH]; intros s; cbn; [done|].
  destruct (step s) as [s'|] eqn:Hstep; [|done].
  destruct (step_handle _ _ Hstep) as [[-> Hl]|(c & -> & Hc & Hl)]; cbn.
  - rewrite <- Hl. apply IH.
  - f_equal. rewrite IH, Hl.
    rewrite <- (fmap_S_seq 1), <- list_fmap_compose.
    apply list_fmap_ext. intros i j _. cbn. unfold incr64.
    rewrite Zplus_mod_idemp_l. f_equal. lia.
Qed.

Lemma seq_from_1_sorted (n : nat) :
  let hs := Z.of_nat <$> seq 1 n in
  StronglySorted Z.lt hs /\ NoDup hs /\ 0 ∉ hs.
Proof.
  cbn. assert (Hs : forall k, StronglySorted Z.lt (Z.of_nat <$> seq k n)
                           /\ (forall x, x ∈ Z.of_nat <$> seq k n -> Z.of_nat k <= x)).
  { induction n as [|n IH]; intros k; cbn.
    - split; [constructor|]. intros x Hx. by apply elem_of_nil in Hx.
    - destruct (IH (S k)) as [IH1 IH2]. split.
      + constructor; [done|]. apply Forall_forall. intros x Hx%IH2. lia.
      + intros x [->|Hx%IH2]%elem_of_cons; lia. }
  destruct (Hs 1%nat) as [Hsorted Hge]. split; [done|]. split.
  - clear Hge. induction Hsorted as [|x l _ IH Hall]; constructor; [|done].
    intros Hx. rewrite Forall_forall in Hall. apply Hall in Hx. lia.
  - intros H0%Hge. lia.
Qed.

(** C4: in a session whose input has fewer than 2^64 values (so that the
    64-bit counter cannot wrap around), the handles given to the client by
    the successful [BeginTx], [Bucket] and [Cursor] commands are, in the
    order of the replies, 1, 2, 3, ...: one counter for the three kinds,
    strictly increasing from 1, without repetition and never 0. *)
Theorem handles_strictly_increasing (d : DB) (input : list token) (out : Encoder) :
  Z.of_nat (length input) < two64 ->
  let hs := (Server_handles d input out).*2 in
  hs = Z.of_nat <$> seq 1 (length hs) /\
  StronglySorted Z.lt hs /\ NoDup hs /\ (0 ∉ hs) /\
  Forall (fun p => fst p ∈ [CmdBeginTx; CmdBucket; CmdCursor])
         (Server_handles d input out).
Proof.
  intros Hlen hs. subst hs. unfold Server_handles.
  destruct (returned_handles_spec (S (length input)) (new_session d input out))
    as [Heq Hall]; [done|cbn; lia|].
  cbn [lastHandle new_session] in Heq.
  assert (Hhs : (returned_handles (S (length input)) (new_session d input out)).*2
                = Z.of_nat <$> seq 1 (length (returned_handles (S (length input))
                                                 (new_session d input out)).*2)).
  { rewrite length_fmap. rewrite Heq at 1. apply list_fmap_ext. intros; lia. }
  split; [exact Hhs|]. rewrite Hhs.
  pose proof (seq_from_1_sorted (length (returned_handles (S (length input))
                                           (new_session d input out)).*2)) as Hs.
  cbn in Hs. destruct Hs as (?&?&?). done.
Qed.

(** *** The loop ends *)

Lemma Server_loop_total (fuel : nat) : forall (s : session),
  (length (decoder s) < fuel)%nat ->
  exists r s', Server_loop fuel s = Some (r, s') /\ closed s' = true.
Proof.
  induction fuel as [|fuel IH]; intros s Hlen; [lia|]. cbn.
  destruct (step s) as [s'|r s'] eqn:Hstep.
  - apply IH. destruct (step_frame _ _ Hstep) as [_ Hlt]. lia.
  - eauto.
Qed.

Lemma Server_total (d : DB) (input : list token) (out : Encoder) :
  exists r s', Server d input out = Some (r, s') /\ closed s' = true.
Proof. apply Server_loop_total. cbn. lia. Qed.

Lemma returned_handles_fuel (fuel : nat) : forall (fuel' : nat) (s : session),
  (length (decoder s) < fuel)%nat -> (length (decoder s) < fuel')%nat ->
  returned_handles fuel s = returned_handles fuel' s.
Proof.
  induction fuel as [|fuel IH]; intros fuel' s Hlen Hlen'; [lia|].
  destruct fuel' as [|fuel']; [lia|]. cbn.
  destruct (step s) as [s'|r s'] eqn:Hstep; [|done].
  destruct (step_frame _ _ Hstep) as [_ Hlt].
  f_equal. apply IH; lia.
Qed.

(** *** [EndTx] releases the descendants of the transaction *)

Lemma remove_cursors_gone (c : Z) (l : list Z) : forall (cs : gmap Z BoltCursor),
  c ∈ l -> remove_cursors l cs !! c = None.
Proof.
  induction l as [|a l IH]; intros cs Hc; [by apply elem_of_nil in Hc|].
  change (remove_cursors (a :: l) cs) with (remove_cursors l (delete a cs)).
  destruct (decide (c = a)) as [->|Hne].
  - eapply lookup_weaken_None; [apply lookup_delete_eq|apply remove_cursors_subseteq].
  - apply IH. apply elem_of_cons in Hc as [?|?]; done.
Qed.

Lemma remove_bucket_gone (s : session) (b c : Z) (chs : list Z) :
  cursorsByBucket s !! b = Some chs -> c ∈ chs ->
  buckets (remove_bucket s b) !! b = None /\
  cursors (remove_bucket s b) !! c = None /\
  cursorsByBucket (remove_bucket s b) !! b = None.
Proof.
  intros Hchs Hc. unfold remove_bucket. rewrite Hchs. cbn.
  split; [apply lookup_delete_eq|].
  split; [by apply remove_cursors_gone|apply lookup_delete_eq].
Qed.

Lemma shrinks_gone (s s' : session) (b c : Z) :
  shrinks s s' ->
  buckets s !! b = None -> cursors s !! c = None ->
  buckets s' !! b = None /\ cursors s' !! c = None.
Proof.
  intros (Hcs & Hbs & _) Hb Hc.
  split; eapply lookup_weaken_None; eassumption.
Qed.

Lemma foldl_remove_bucket_gone (b c : Z) (chs : list Z) (l : list Z) :
  forall (s : session),
    b ∈ l -> cursorsByBucket s !! b = Some chs -> c ∈ chs ->
    buckets (foldl remove_bucket s l) !! b = None /\
    cursors (foldl remove_bucket s l) !! c = None.
Proof.
  induction l as [|a l IH]; intros s Hb Hchs Hc; [by apply elem_of_nil in Hb|].
  cbn [foldl].
  destruct (decide (a = b)) as [->|Hne].
  - destruct (remove_bucket_gone s b c chs Hchs Hc) as (Hb1 & Hc1 & _).
    eapply shrinks_gone; [apply foldl_remove_bucket_shrinks|done|done].
  - apply IH; [apply elem_of_cons in Hb as [?|?]; done| |done].
    unfold remove_bucket.
    destruct (cursorsByBucket s !! a); cbn; [|done].
    by rewrite lookup_delete_ne.
Qed.

Lemma remove_buckets_gone (s : session) (t b c : Z) (bhs chs : list Z) :
  bucketsByTx s !! t = Some bhs -> b ∈ bhs ->
  cursorsByBucket s !! b = Some chs -> c ∈ chs ->
  buckets (remove_buckets t s) !! b = None /\
  cursors (remove_buckets t s) !! c = None /\
  bucketsByTx (remove_buckets t s) !! t = None.
Proof.
  intros Hbhs Hb Hchs Hc. unfold remove_buckets. rewrite Hbhs. cbn.
  destruct (foldl_remove_bucket_gone b c chs bhs s Hb Hchs Hc) as [? ?].
  split; [done|]. split; [done|]. apply lookup_delete_eq.
Qed.

(** What a successful [EndTx] leaves. *)
Lemma step_EndTx (s s1 : session) (t : Z) (tx : BoltTx) (rest : list token) :
  decoder s = TUint (tag CmdEndTx) :: TUint t :: rest ->
  transactions s !! t = Some tx ->
  step s = Continue s1 ->
  exists d',
    tx_Rollback tx (db s) = (None, d') /\
    s1 = set_lastError None
           (set_transactions (delete t (transactions s))
              (set_db d' (remove_buckets t (set_decoder rest s)))).
Proof.
  intros Hd Htx. rewrite (step_cmd CmdEndTx s _ Hd). cbn [exec].
  unfold doEndTx, bind, decode, Decode_uint64, Decode_uint. cbn [decoder set_decoder].
  destruct (decide (0 <= t < two64)); [|done]. cbn [transactions set_decoder].
  rewrite Htx. cbv zeta.
  destruct (remove_buckets_shrinks t (set_decoder rest s))
    as (_&_&_&_&Htr&_&_&_&Hdb&_). cbn in Htr, Hdb.
  change (set_decoder rest (set_decoder (TUint t :: rest) s)) with (set_decoder rest s).
  rewrite Hdb, Htr.
  destruct (tx_Rollback tx (db s)) as [[err|] d']; [done|].
  intros [= <-]. eauto.
Qed.

Lemma step_bounded (s s' : session) :
  step s = Continue s' -> handles_bounded s -> handles_bounded s'.
Proof.
  intros [(Hlen & Hl & _ & _ & Hbt & Hcb) Hlt]%step_frame (Hpos & Hroom & Hb & Hc).
  assert (lastHandle s <= lastHandle s' /\ 0 <= lastHandle s' /\
          lastHandle s' + Z.of_nat (length (decoder s')) < two64) as (Hle & ? & ?).
  { destruct Hl as [->| ->]; [lia|]. rewrite incr64_small by lia. lia. }
  split; [done|]. split; [done|]. split.
  - intros t l b Ht Hin. destruct (Hbt t l b Ht Hin) as [(l0 & Hl0 & Hin0)|[_ ->]]; [|lia].
    specialize (Hb t l0 b Hl0 Hin0). lia.
  - intros b l c Ht Hin. destruct (Hcb b l c Ht Hin) as [(l0 & Hl0 & Hin0)|[_ ->]]; [|lia].
    specialize (Hc b l0 c Hl0 Hin0). lia.
Qed.

Lemma steps_bounded (s s' : session) :
  rtc steps_to s s' -> handles_bounded s -> handles_bounded s'.
Proof. induction 1; eauto using step_bounded. Qed.

Lemma new_session_bounded (d : DB) (input : list token) (out : Encoder) :
  Z.of_nat (length input) < two64 -> handles_bounded (new_session d input out).
Proof.
  intros Hlen. unfold handles_bounded. cbn. split; [done|]. split; [done|].
  split; intros ? ? ? Hl; by rewrite lookup_empty in Hl.
Qed.

Lemma step_released (b c : Z) (s s' : session) :
  step s = Continue s' -> released b c s -> released b c s'.
Proof.
  intros [(Hlen & Hl & Hbs & Hcs & _) Hlt]%step_frame (Hb & Hc & Hble & Hcle & Hpos & Hroom).
  assert (lastHandle s <= lastHandle s' /\
          lastHandle s' + Z.of_nat (length (decoder s')) < two64) as (Hle & ?).
  { destruct Hl as [->| ->]; [lia|]. rewrite incr64_small by lia. lia. }
  unfold released. split_and!; try lia.
  - apply eq_None_not_Some. intros [[x Hx]|[Hl' ->]]%Hbs; [congruence|].
    rewrite incr64_small in Hl' by lia. lia.
  - apply eq_None_not_Some. intros [[x Hx]|[Hl' ->]]%Hcs; [congruence|].
    rewrite incr64_small in Hl' by lia. lia.
Qed.

Lemma steps_released (b c : Z) (s s' : session) :
  rtc steps_to s s' -> released b c s -> released b c s'.
Proof. induction 1; eauto using step_released. Qed.

Lemma step_unknown_bucket (cmd : Command) (s s' : session) (b : Z) (rest : list token) :
  cmd ∈ [CmdGet; CmdCursor] ->
  decoder s = TUint (tag cmd) :: TUint b :: rest ->
  buckets s !! b = None ->
  step s = Continue s' ->
  lastError s' = Some (Errorf "bucket not found").
Proof.
  intros Hcmd Hd Hb Hstep. rewrite (step_cmd cmd s _ Hd) in Hstep.
  destruct (exec cmd _) as [[[]|err] s1] eqn:He; simplify_eq.
  apply exec_lastError in He. rewrite He.
  repeat (apply elem_of_cons in Hcmd as [->|Hcmd]); [..|by apply elem_of_nil in Hcmd];
    unfold lastError_after, arg_handle; cbn; by rewrite Hb.
Qed.

Lemma step_unknown_cursor (cmd : Command) (s s' : session) (c : Z) (rest : list token) :
  cmd ∈ [CmdSeek; CmdNext] ->
  decoder s = TUint (tag cmd) :: TUint c :: rest ->
  cursors s !! c = None ->
  step s = Continue s' ->
  lastError s' = Some (Errorf "cursor not found").
Proof.
  intros Hcmd Hd Hc Hstep. rewrite (step_cmd cmd s _ Hd) in Hstep.
  destruct (exec cmd _) as [[[]|err] s1] eqn:He; simplify_eq.
  apply exec_lastError in He. rewrite He.
  repeat (apply elem_of_cons in Hcmd as [->|Hcmd]); [..|by apply elem_of_nil in Hcmd];
    unfold lastError_after, arg_handle; cbn; by rewrite Hc.
Qed.

(** *** The reverse indices record what was created *)

Lemma remove_bucket_index (s : session) (a b : Z) :
  bucketsByTx (remove_bucket s a) = bucketsByTx s /\
  (a <> b -> cursorsByBucket (remove_bucket s a) !! b = cursorsByBucket s !! b).
Proof.
  unfold remove_bucket. destruct (cursorsByBucket s !! a); cbn; split; try done.
  intros Hne. by rewrite lookup_delete_ne.
Qed.

Lemma foldl_remove_bucket_index (l : list Z) (b : Z) : forall (s : session),
  bucketsByTx (foldl remove_bucket s l) = bucketsByTx s /\
  (b ∉ l -> cursorsByBucket (foldl remove_bucket s l) !! b = cursorsByBucket s !! b).
Proof.
  induction l as [|a l IH]; intros s; cbn; [done|].
  destruct (IH (remove_bucket s a)) as [IH1 IH2].
  destruct (remove_bucket_index s a b) as [H1 H2].
  split; [congruence|].
  intros [Hne Hnin]%not_elem_of_cons. rewrite IH2, H2; done.
Qed.

Lemma remove_buckets_index (t : Z) (s : session) :
  (forall t', t' <> t ->
     bucketsByTx (remove_buckets t s) !! t' = bucketsByTx s !! t') /\
  (forall b, (forall bhs, bucketsByTx s !! t = Some bhs -> b ∉ bhs) ->
     cursorsByBucket (remove_buckets t s) !! b = cursorsByBucket s !! b).
Proof.
  unfold remove_buckets. destruct (bucketsByTx s !! t) as [bhs|] eqn:Hbhs; [|done].
  cbn. split.
  - intros t' Hne. rewrite lookup_delete_ne by done.
    by destruct (foldl_remove_bucket_index bhs 0 s) as [-> _].
  - intros b Hb. destruct (foldl_remove_bucket_index bhs b s) as [_ Hcb].
    apply Hcb. by apply Hb.
Qed.

(** A successful [Bucket] records the new handle under its transaction,
    and a successful [Cursor] under its bucket. *)
Lemma step_Bucket_recorded (s s' : session) (t : Z) (rest : list token) :
  decoder s = TUint (tag CmdBucket) :: TUint t :: rest ->
  step s = Continue s' ->
  lastError s' = None ->
  is_Some (buckets s' !! lastHandle s') /\
  exists l, bucketsByTx s' !! t = Some l /\ lastHandle s' ∈ l.
Proof.
  intros Hd Hstep Herr. rewrite (step_cmd CmdBucket s _ Hd) in Hstep.
  destruct (exec CmdBucket _) as [[[]|err] s1] eqn:He; simplify_eq.
  unfold_exec; cbn in He;
    repeat (case_match; simplify_eq; cbn in * ); simplify_eq; cbn in *.
  all: rewrite !lookup_insert_eq; split; [done|]; eexists; split; [done|]; set_solver.
Qed.

Lemma step_Cursor_recorded (s s' : session) (b : Z) (rest : list token) :
  decoder s = TUint (tag CmdCursor) :: TUint b :: rest ->
  step s = Continue s' ->
  lastError s' = None ->
  is_Some (cursors s' !! lastHandle s') /\
  exists l, cursorsByBucket s' !! b = Some l /\ lastHandle s' ∈ l.
Proof.
  intros Hd Hstep Herr. rewrite (step_cmd CmdCursor s _ Hd) in Hstep.
  destruct (exec CmdCursor _) as [[[]|err] s1] eqn:He; simplify_eq.
  unfold_exec; cbn in He;
    repeat (case_match; simplify_eq; cbn in * ); simplify_eq; cbn in *.
  all: rewrite !lookup_insert_eq; split; [done|]; eexists; split; [done|]; set_solver.
Qed.

Ltac keep_index :=
  let t := fresh "t" in let l := fresh "l" in let x := fresh "x" in
  let Hl := fresh "Hl" in let Hx := fresh "Hx" in
  intros t l x Hl Hx;
  first
    [ left; eauto; fail
    | match goal with
      | |- (exists _, <[?k:=_]> _ !! _ = _ /\ _) \/ _ =>
          left; destruct (decide (t = k)) as [->|];
          [ first [ congruence
                  | rewrite lookup_insert_eq; simplify_eq; eexists; split; [done|set_solver] ]
          | rewrite lookup_insert_ne by done; eauto ]
      end ].

(** What is recorded stays recorded until the [EndTx] of the transaction. *)
Lemma exec_keeps_recorded (c : Command) (s s' : session) :
  exec c s = (Ok tt, s') ->
  (forall t l b, bucketsByTx s !! t = Some l -> b ∈ l ->
     (exists l', bucketsByTx s' !! t = Some l' /\ b ∈ l')
     \/ (c = CmdEndTx /\ arg_handle s = t)) /\
  (forall b l x, cursorsByBucket s !! b = Some l -> x ∈ l ->
     (exists l', cursorsByBucket s' !! b = Some l' /\ x ∈ l')
     \/ (c = CmdEndTx /\ exists bhs, bucketsByTx s !! arg_handle s = Some bhs /\ b ∈ bhs)).
Proof.
  intros He. unfold arg_handle.
  destruct c; unfold_exec;
    repeat (case_match; simplify_eq; cbn in * ); simplify_eq; cbn in *.
  all: try (split; keep_index; fail).
  destruct (remove_buckets_index a (set_decoder l s)) as [Hbt Hcb]. cbn in Hbt, Hcb.
  split.
  - intros t l0 b0 Hl0 Hb0. destruct (decide (t = a)) as [->|Hne]; [by right|].
    left. rewrite Hbt by done. eauto.
  - intros b0 l0 x Hl0 Hx.
    destruct (bucketsByTx s !! a) as [bhs|] eqn:Hbhs.
    + destruct (decide (b0 ∈ bhs)) as [Hin|Hnin]; [right; eauto|].
      left. rewrite Hcb; [eauto|]. intros bhs' [= <-]. done.
    + left. rewrite Hcb; [eauto|]. intros bhs' [=].
Qed.

(** The order of the cascade shows when the rollback fails: the buckets
    and cursors are gone already, the transaction is still registered, and
    the session ends with the error of the rollback. *)
Lemma step_EndTx_rollback_error (s : session) (t : Z) (tx : BoltTx)
    (rest : list token) (err : error) (d' : DB) :
  decoder s = TUint (tag CmdEndTx) :: TUint t :: rest ->
  0 <= t < two64 ->
  transactions s !! t = Some tx ->
  tx_Rollback tx (db s) = (Some err, d') ->
  step s = Return (Some err) (set_db d' (remove_buckets t (set_decoder rest s))) /\
  transactions (set_db d' (remove_buckets t (set_decoder rest s))) !! t = Some tx.
Proof.
  intros Hd Ht Htx Hrb. rewrite (step_cmd CmdEndTx s _ Hd). cbn [exec].
  unfold doEndTx, bind. rewrite (decode_uint64_ok t rest) by done.
  cbn [transactions set_decoder]. rewrite Htx. cbv zeta.
  destruct (remove_buckets_shrinks t (set_decoder rest s))
    as (_&_&_&_&Htr&_&_&_&Hdb&_). cbn in Htr, Hdb.
  change (set_decoder rest (set_decoder (TUint t :: rest) s)) with (set_decoder rest s).
  rewrite Hdb, Hrb. split; [done|]. cbn. by rewrite Htr.
Qed.

Lemma after_steps (n : nat) : forall (s : session),
  goes_on n s = true -> rtc steps_to s (after n s).
Proof.
  induction n as [|n IH]; intros s Hgo; cbn in *; [done|].
  destruct (step s) as [s'|] eqn:Hstep; [|done].
  eapply rtc_l; [exact Hstep|]. by apply IH.
Qed.


End ServerProperties.

(** ** The properties at work on the in-memory store *)
Section Witnesses.
Import MemStore Scenario.

Lemma Next_zero_emits_nothing_witness :
  exists s',
    step (opened [TUint 8; TUint 3; TUint 0]) = Continue s' /\
    reply (opened [TUint 8; TUint 3; TUint 0]) s' = [] /\
    encoder s' = encoder (opened [TUint 8; TUint 3; TUint 0]) /\
    cursors s' = cursors (opened [TUint 8; TUint 3; TUint 0]) /\
    cursors s' !! 3 = Some data_cursor /\
    lastError s' = None.
Proof.
  apply (Next_zero_emits_nothing (opened [TUint 8; TUint 3; TUint 0]) 3 data_cursor []).
  - vm_compute. reflexivity.
  - unfold two64. lia.
  - vm_compute. reflexivity.
Defined.

Lemma Next_emits_pairs_witness :
  exists (k : nat) (pairs : list (gobytes * gobytes)) (cursor' : memcursor)
         (s' : session),
    step (opened [TUint 8; TUint 3; TUint 5]) = Continue s' /\
    advance k data_cursor = (pairs, cursor') /\
    reply (opened [TUint 8; TUint 3; TUint 5]) s' = pair_tokens pairs /\
    length pairs = k /\
    (1 <= k <= Z.to_nat 5)%nat /\
    (forall i kv, pairs !! i = Some kv -> (S i < k)%nat -> is_Some (fst kv)) /\
    ((k < Z.to_nat 5)%nat -> exists v, last pairs = Some (None, v)) /\
    cursors s' !! 3 = Some cursor' /\
    lastError s' = None.
Proof.
  apply (Next_emits_pairs (opened [TUint 8; TUint 3; TUint 5]) 3 5 data_cursor []).
  - vm_compute. reflexivity.
  - unfold two64. lia.
  - unfold two64. lia.
  - vm_compute. reflexivity.
  - vm_compute. lia.
Defined.

(** The cursor scenario of the protocol: after a [Seek] to "a", [Next] with
    the count 5 sends "b", "c" and the nil pair, and stops. *)
Example Next_after_Seek :
  written (encoder (after 5 (new_session testdb
    (open_cursor ++ [TUint 7; TUint 3; TBytes (Some []); TUint 8; TUint 3; TUint 5])
    unlimited)))
  = [TUint 1; TUint 2; TUint 3;
     TBytes (Some (b "a")); TBytes (Some (b "1"));
     TBytes (Some (b "b")); TBytes (Some (b "2"));
     TBytes (Some (b "c")); TBytes (Some (b "3"));
     TBytes None; TBytes None].
Proof. vm_compute. reflexivity. Qed.

(** C1, as the code has it: [Next] with a count [n > 0] replies nothing on
    an unknown cursor handle and at least one pair on a known one, so the
    reply of the failing [Next] does not have the shape of a successful one.
    On the in-memory store, [Next(9, 2)] with no cursor 9 writes no value
    and [Next(3, 2)] on the cursor 3 writes four. *)
Theorem Next_failure_reply_differs :
  (forall (St : Store) (s : session) (h n : Z) (rest : list token),
     decoder s = TUint (tag CmdNext) :: TUint h :: TUint n :: rest ->
     0 <= h < two64 ->
     0 < n < two64 ->
     (2 * Z.to_nat n <= room (encoder s))%nat ->
     (cursors s !! h = None ->
      exists s', step s = Continue s' /\ reply s s' = [] /\
                 lastError s' = Some (Errorf "cursor not found")) /\
     (forall cursor, cursors s !! h = Some cursor ->
      exists s', step s = Continue s' /\ (2 <= length (reply s s'))%nat /\
                 lastError s' = None)) /\
  reply (opened [TUint 8; TUint 9; TUint 2]) (after 1 (opened [TUint 8; TUint 9; TUint 2]))
  = [] /\
  reply (opened [TUint 8; TUint 3; TUint 2]) (after 1 (opened [TUint 8; TUint 3; TUint 2]))
  = [TBytes (Some (b "b")); TBytes (Some (b "2"));
     TBytes (Some (b "c")); TBytes (Some (b "3"))].
Proof.
  split; [intros St; apply step_Next_reply_differs|].
  split; vm_compute; reflexivity.
Qed.

Lemma Next_failure_reply_differs_witness :
  exists s', step (opened [TUint 8; TUint 9; TUint 2]) = Continue s' /\
             reply (opened [TUint 8; TUint 9; TUint 2]) s' = [] /\
             lastError s' = Some (Errorf "cursor not found").
Proof.
  refine (proj1 (proj1 Next_failure_reply_differs mem
                   (opened [TUint 8; TUint 9; TUint 2]) 9 2 [] _ _ _ _) _).
  - vm_compute. reflexivity.
  - unfold two64. lia.
  - unfold two64. lia.
  - vm_compute. lia.
  - vm_compute. reflexivity.
Defined.

(** C2, as the code has it: an error in the decoding of the count of [Next]
    does not end the session; the turn of the loop goes on with what the
    decoder left of the input.  On the input [Next], 7 and nothing more, the
    server returns nil and not the error. *)
Theorem Next_count_decode_error_not_fatal :
  (forall (St : Store) (s : session) (h : Z) (bad : list token) (err : error),
     decoder s = TUint (tag CmdNext) :: TUint h :: bad ->
     0 <= h < two64 ->
     fst (Decode_uint64 bad) = inl err ->
     exists s', step s = Continue s' /\ decoder s' = snd (Decode_uint64 bad)) /\
  fst (Decode_uint64 (drop 2 truncated_next)) = inl EOF /\
  fst <$> @Server mem testdb truncated_next unlimited = Some None.
Proof.
  split; [intros St; apply step_Next_count_error|].
  split; vm_compute; reflexivity.
Qed.

Lemma Next_count_decode_error_not_fatal_witness :
  exists s', step (new_session testdb truncated_next unlimited) = Continue s' /\
             decoder s' = snd (Decode_uint64 []).
Proof.
  refine (proj1 Next_count_decode_error_not_fatal mem
            (new_session testdb truncated_next unlimited) 7 [] EOF _ _ _).
  - reflexivity.
  - unfold two64. lia.
  - reflexivity.
Defined.

(** The handshake: the server answers [Version] with the constant, and the
    client accepts it. *)
Example handshake :
  (written ∘ encoder ∘ snd) <$> @Server mem testdb [TUint 0] unlimited
  = Some [TUint Version] /\
  fst (Client.NewDB [TUint Version] unlimited) = None.
Proof. split; vm_compute; reflexivity. Qed.

(** The other decode errors do end the session, with the error. *)
Example EndTx_handle_decode_error :
  fst <$> @Server mem testdb [TUint 3; TBad] unlimited = Some (Some decode_error).
Proof. vm_compute. reflexivity. Qed.

Lemma handles_strictly_increasing_witness :
  let hs := (Server_handles testdb cascade unlimited).*2 in
  hs = Z.of_nat <$> seq 1 (length hs) /\
  StronglySorted Z.lt hs /\ NoDup hs /\ (0 ∉ hs) /\
  Forall (fun p => fst p ∈ [CmdBeginTx; CmdBucket; CmdCursor])
         (Server_handles testdb cascade unlimited).
Proof.
  apply (handles_strictly_increasing (H:=mem) testdb cascade unlimited).
  vm_compute. reflexivity.
Defined.

Example cascade_handles :
  Server_handles testdb cascade unlimited
  = [(CmdBeginTx, 1); (CmdBucket, 2); (CmdCursor, 3)].
Proof. vm_compute. reflexivity. Qed.

Lemma lastError_frame_witness :
  lastError (cascade_after 5) = lastError (cascade_after 4).
Proof.
  refine (proj2 lastError_frame (cascade_after 4) (cascade_after 5) _).
  eapply rtc_l; [|apply rtc_refl]. split.
  - vm_compute. reflexivity.
  - left. vm_compute. reflexivity.
Defined.

End Witnesses.

(** * Further properties of the server *)
Section MoreServerProperties.
Context `{Store}.

Ltac exec_cases :=
  unfold exec, doVersion, doLastError, doBeginTx, doEndTx, doBucket, doGet,
    doCursor, doSeek, doNext, bind, decode, decode_logged, encode,
    Decode_uint64, Decode_uint8, Decode_uint, Decode_bytes, Encode in *;
  repeat (case_match; simplify_eq; cbn in * ); simplify_eq; cbn in *.

Lemma Command_of_range (c : Z) (cmd : Command) :
  Command_of c = Some cmd -> 0 <= c <= 8.
Proof.
  intros Hc. destruct c as [|p|p]; [lia| |done].
  do 4 (try (destruct p as [p|p|]; cbn in Hc; try done; try lia)).
Qed.

(** X1: a command tag that is none of the nine commands ends the session
    with an error and writes nothing: "unknown command" with the tag for a
    byte from 9 to 255, a decode error for a value that is no byte. *)
Theorem unknown_command_fatal (s : session) (c : Z) (rest : list token) :
  decoder s = TUint c :: rest ->
  ~ (0 <= c <= 8) ->
  step s = Return (Some (if decide (0 <= c < 256)
                         then Errorf ("unknown command " +:+ pretty c)
                         else decode_error))
             (set_decoder rest s).
Proof.
  intros Hd Hc. unfold step, Decode_uint8, Decode_uint. rewrite Hd.
  destruct (decide (0 <= c < 256)); [|done].
  destruct (Command_of c) as [cmd|] eqn:Hcmd; [|done].
  apply Command_of_range in Hcmd. done.
Qed.

(** X2: a decode error on the handle of [EndTx], [Bucket], [Get], [Cursor],
    [Seek] or [Next], or on the byte string of [Bucket], [Get] or [Seek],
    ends the session with that error; so does a decode error on the command
    tag, but for the end of the input, on which [Server] returns nil. *)
Theorem argument_decode_error_fatal (s : session) (err : error) :
  (forall c bad,
     c ∈ [CmdEndTx; CmdBucket; CmdGet; CmdCursor; CmdSeek; CmdNext] ->
     decoder s = TUint (tag c) :: bad ->
     fst (Decode_uint64 bad) = inl err ->
     step s = Return (Some err) (set_decoder (snd (Decode_uint64 bad)) s)) /\
  (forall c h bad,
     c ∈ [CmdBucket; CmdGet; CmdSeek] ->
     decoder s = TUint (tag c) :: TUint h :: bad ->
     0 <= h < two64 ->
     fst (Decode_bytes bad) = inl err ->
     step s = Return (Some err) (set_decoder (snd (Decode_bytes bad)) s)) /\
  (fst (Decode_uint8 (decoder s)) = inl err ->
   step s = Return (if decide (err = EOF) then None else Some err)
                   (set_decoder (snd (Decode_uint8 (decoder s))) s)).
Proof.
  split; [|split].
  - intros c bad. apply handle_decode_error_fatal.
  - intros c h bad. apply bytes_decode_error_fatal.
  - intros Herr. unfold step.
    destruct (Decode_uint8 (decoder s)) as [[e|n] d]; cbn in *; simplify_eq.
    destruct err; [done|]. by rewrite decide_False.
Qed.

(** X3: the reply of every command other than [Next] has one shape on all
    the paths that do not end the session, the not-found ones included: one
    integer for [Version], [BeginTx], [Bucket] and [Cursor], one text for
    [LastError], one byte string for [Get], two for [Seek], and nothing for
    [EndTx]. *)
Theorem reply_has_fixed_shape (c : Command) (s s' : session) :
  c <> CmdNext ->
  next_command s = Some c ->
  step s = Continue s' ->
  shape <$> reply s s' = reply_shape c.
Proof.
  intros Hc Hnext (c' & v & d & Hd & Hc' & He)%step_inv. simplify_eq.
  by apply (reply_shape_fixed c (set_decoder d s) s').
Qed.

Lemma Next_loop_written (n : nat) : forall (cursor : BoltCursor) (e : Encoder),
  written e `prefix_of` written (Next_loop n cursor e).2 /\
  (length (written (Next_loop n cursor e).2) + room (Next_loop n cursor e).2
   = length (written e) + room e)%nat.
Proof.
  induction n as [|n IH]; intros cursor e; cbn [Next_loop]; [done|].
  destruct (cursor_Next cursor) as [[key value] cursor1].
  unfold Encode. destruct (room e) as [|[|r]] eqn:Hr; cbn [written room snd].
  - split; [done|lia].
  - split; [by apply prefix_app_r|]. rewrite length_app. cbn. lia.
  - destruct key as [key|]; cbn [snd].
    + destruct (IH cursor1 {| written := (written e ++ [TBytes (Some key)]) ++ [TBytes value];
                              room := r |}) as [IH1 IH2].
      cbn [written room] in *. split.
      * etrans; [|exact IH1]. rewrite <- app_assoc. by apply prefix_app_r.
      * rewrite IH2, !length_app. cbn. lia.
    + cbn. split; [rewrite <- app_assoc; by apply prefix_app_r|].
      rewrite !length_app. cbn. lia.
Qed.

Lemma exec_written (c : Command) (s s' : session) (r : result unit) :
  exec c s = (r, s') ->
  written (encoder s) `prefix_of` written (encoder s') /\
  (length (written (encoder s')) + room (encoder s')
   = length (written (encoder s)) + room (encoder s))%nat.
Proof.
  intros He. destruct c; exec_cases;
    repeat match goal with
    | |- context [remove_buckets ?t ?s0] =>
        let He := fresh in
        destruct (remove_buckets_shrinks t s0) as (_&_&_&_&_&_&_&He&_);
        cbn in He; rewrite He
    | Hl : Next_loop ?n ?cu ?e = _ |- _ =>
        let Hw := fresh in
        pose proof (Next_loop_written n cu e) as Hw; rewrite Hl in Hw;
        cbn in Hw; clear Hl
    end;
    rewrite ?length_app; cbn;
    try (split; [first [done | by apply prefix_app_r
                       | rewrite <- app_assoc; by apply prefix_app_r]|lia]).
  all: try done.
Qed.

Lemma prefix_same_length {A} (l1 l2 : list A) :
  l1 `prefix_of` l2 -> (length l2 <= length l1)%nat -> l2 = l1.
Proof.
  intros [k ->] Hlen. rewrite length_app in Hlen.
  destruct k; [by rewrite app_nil_r|cbn in Hlen; lia].
Qed.

(** X4: on a writer that takes no more values, a command that has a reply
    ends the session with an error and writes nothing; it never goes on as
    if the reply had been sent. *)
Theorem write_error_fatal (c : Command) (s : session) :
  next_command s = Some c ->
  reply_shape c <> [] ->
  room (encoder s) = O ->
  exists err s', step s = Return (Some err) s' /\
                 written (encoder s') = written (encoder s).
Proof.
  intros Hnext Hshape Hroom. unfold next_command in Hnext. unfold step.
  destruct (Decode_uint8 (decoder s)) as [[e|n] d]; [done|].
  rewrite Hnext.
  destruct (exec c (set_decoder d s)) as [r s'] eqn:He.
  destruct (exec_written _ _ _ _ He) as [Hpre Hlen]. cbn in Hpre, Hlen.
  assert (written (encoder s') = written (encoder s)) as Hw.
  { apply prefix_same_length; [done|lia]. }
  destruct r as [[]|err]; [|eauto].
  exfalso. apply Hshape.
  destruct (decide (c = CmdNext)) as [->|Hne]; [done|].
  rewrite <- (reply_shape_fixed c _ _ Hne He).
  unfold reply. cbn. by rewrite Hw, drop_all.
Qed.

Lemma step_written (s : session) :
  match step s with
  | Continue s' | Return _ s' =>
      written (encoder s) `prefix_of` written (encoder s') /\
      (length (written (encoder s')) + room (encoder s')
       = length (written (encoder s)) + room (encoder s))%nat
  end.
Proof.
  unfold step.
  destruct (Decode_uint8 (decoder s)) as [[[|m]|n] d]; cbn; try done.
  destruct (Command_of n) as [c|]; [|done].
  destruct (exec c (set_decoder d s)) as [[[]|err] s'] eqn:He;
    apply (exec_written _ _ _ _ He).
Qed.

Lemma Server_loop_inv (fuel : nat) : forall (s : session) r sf,
  Server_loop fuel s = Some (r, sf) ->
  exists s1 s2, rtc steps_to s s1 /\ step s1 = Return r s2 /\ sf = run_deferred s2.
Proof.
  induction fuel as [|fuel IH]; intros s r sf Hloop; [done|]. cbn in Hloop.
  destruct (step s) as [s'|r' s'] eqn:Hstep.
  - destruct (IH _ _ _ Hloop) as (s1 & s2 & Hrtc & Hret & Hsf).
    exists s1, s2. split; [by eapply rtc_l|done].
  - simplify_eq. exists s, s'. done.
Qed.




Lemma exec_deferred_covers (c : Command) (s s' : session) (r : result unit) :
  exec c s = (r, s') -> deferred_covers s -> deferred_covers s'.
Proof.
  intros He Hcov. unfold deferred_covers in *.
  destruct c; exec_cases;
    repeat match goal with
    | |- context [remove_buckets ?t ?s0] =>
        let H1 := fresh in let H2 := fresh in
        destruct (remove_buckets_shrinks t s0) as (_&_&_&_&H1&_&_&_&_&_&H2);
        cbn in H1, H2; rewrite ?H1, ?H2
    end; try done.
  all: intros h tx Htx.
  all: try (destruct (decide (h = incr64 (lastHandle s))) as [->|Hne];
            [rewrite lookup_insert_eq in Htx; simplify_eq; by left
            |rewrite lookup_insert_ne in Htx by done; right; eauto]).
  all: try (apply lookup_delete_Some in Htx as [_ Htx]; eauto).
Qed.

Lemma step_deferred_covers (s : session) :
  deferred_covers s ->
  match step s with
  | Continue s' | Return _ s' => deferred_covers s'
  end.
Proof.
  intros Hcov. unfold step.
  destruct (Decode_uint8 (decoder s)) as [[[|m]|n] d]; cbn; try done.
  destruct (Command_of n) as [c|]; [|done].
  destruct (exec c (set_decoder d s)) as [[[]|err] s'] eqn:He;
    by apply (exec_deferred_covers _ _ _ _ He).
Qed.

Lemma steps_deferred_covers (s s' : session) :
  rtc steps_to s s' -> deferred_covers s -> deferred_covers s'.
Proof.
  induction 1 as [|a b c' Hstep _ IH]; [done|].
  intros Ha. apply IH. pose proof (step_deferred_covers a Ha) as Hs.
  unfold steps_to in Hstep. by rewrite Hstep in Hs.
Qed.

(** X7: when [Server] returns, for whatever reason, every transaction that
    was still open has its rollback among the deferred calls, and the store
    is left as these rollbacks leave it, the last begun first. *)
Theorem open_transactions_rolled_back (d : DB) (input : list token) (out : Encoder)
    (r : option error) (sf : session) :
  Server d input out = Some (r, sf) ->
  exists s_last,
    sf = run_deferred s_last /\
    (forall h tx, transactions s_last !! h = Some tx -> tx ∈ deferred s_last) /\
    db sf = foldl (fun d tx => snd (tx_Rollback tx d)) (db s_last) (deferred s_last).
Proof.
  intros (s1 & s2 & Hrtc & Hret & ->)%Server_loop_inv.
  exists s2. split; [done|]. split; [|done].
  assert (deferred_covers s1) as Hcov.
  { apply (steps_deferred_covers _ _ Hrtc).
    intros h tx Htx. cbn in Htx. by rewrite lookup_empty in Htx. }
  pose proof (step_deferred_covers s1 Hcov) as Hs. by rewrite Hret in Hs.
Qed.

Lemma exec_reading (c : Command) (s s' : session) :
  c ∈ [CmdVersion; CmdLastError; CmdGet; CmdSeek; CmdNext] ->
  exec c s = (Ok tt, s') -> same_tables s s'.
Proof.
  intros Hc He. unfold same_tables.
  repeat (apply elem_of_cons in Hc as [->|Hc]); [..|by apply elem_of_nil in Hc];
    exec_cases; rewrite ?dom_insert_lookup_L by eauto; done.
Qed.

Lemma exec_store (c : Command) (s s' : session) :
  c <> CmdBeginTx -> c <> CmdEndTx ->
  exec c s = (Ok tt, s') ->
  db s' = db s /\ deferred s' = deferred s /\ transactions s' = transactions s.
Proof. intros H1 H2 He. destruct c; try done; exec_cases; done. Qed.

(** X8: [Version], [LastError], [Get], [Seek] and [Next] register and
    release nothing: the counter, the transactions, the buckets, the two
    reverse indices, the deferred rollbacks and the store are as before, and
    the same cursor handles are known.  Only [BeginTx] and [EndTx] act on
    the store or on the set of open transactions. *)
Theorem reading_changes_no_table (c : Command) (s s' : session) :
  next_command s = Some c ->
  step s = Continue s' ->
  (c ∈ [CmdVersion; CmdLastError; CmdGet; CmdSeek; CmdNext] -> same_tables s s') /\
  (c <> CmdBeginTx -> c <> CmdEndTx ->
   db s' = db s /\ deferred s' = deferred s /\ transactions s' = transactions s).
Proof.
  intros Hnext (c' & v & d & Hd & Hc' & He)%step_inv. simplify_eq. split.
  - intros Hc. by apply (exec_reading c (set_decoder d s) s').
  - intros H1 H2. by apply (exec_store c (set_decoder d s) s').
Qed.

(** X9: the [LastError] that follows a command reports the outcome of that
    command: its reply is the text of the error the command left, or
    "<nil>" if it left none, and asking does not change it. *)
Theorem LastError_reports_previous (c : Command) (s s1 : session)
    (v : token) (d rest : list token) :
  decoder s = v :: d ->
  next_command s = Some c ->
  step s = Continue s1 ->
  decoder s1 = TUint (tag CmdLastError) :: rest ->
  room (encoder s1) <> O ->
  exists s2,
    step s1 = Continue s2 /\
    reply s1 s2 = [TText (Sprintf_v (lastError_after c (set_decoder d s)))] /\
    lastError s2 = lastError s1.
Proof.
  intros Hd Hnext (c' & v' & d' & Hd' & Hc' & He)%step_inv Hd1 Hroom.
  rewrite Hd in Hd'. injection Hd' as <- <-. rewrite Hnext in Hc'. injection Hc' as <-.
  apply exec_lastError in He. rewrite <- He.
  rewrite (step_cmd CmdLastError s1 _ Hd1). cbn [exec].
  unfold doLastError, encode, Encode. cbn [encoder lastError set_decoder].
  destruct (room (encoder s1)) as [|r]; [done|].
  eexists. split; [reflexivity|]. split; [|done].
  by apply reply_app.
Qed.

(** X10: [Get] answers the nil value both for a key that the bucket does
    not hold and for a handle that names no bucket; the reply is the same,
    and [lastError] alone tells which it was. *)
Theorem Get_nil_is_ambiguous (s : session) (h : Z) (key : gobytes)
    (rest : list token) :
  decoder s = TUint (tag CmdGet) :: TUint h :: TBytes key :: rest ->
  0 <= h < two64 ->
  room (encoder s) <> O ->
  match buckets s !! h with
  | Some bucket => bucket_Get bucket key = None
  | None => True
  end ->
  exists s',
    step s = Continue s' /\
    reply s s' = [TBytes None] /\
    lastError s' = match buckets s !! h with
                   | Some _ => None
                   | None => Some (Errorf "bucket not found")
                   end.
Proof.
  intros Hd Hh Hroom Hkey.
  rewrite (step_cmd CmdGet s _ Hd). cbn [exec]. unfold doGet, bind.
  rewrite (decode_uint64_ok h (TBytes key :: rest)) by done.
  unfold decode, Decode_bytes, encode, Encode. cbn [decoder buckets encoder set_decoder set_lastError].
  destruct (room (encoder s)) as [|r]; [done|].
  destruct (buckets s !! h) as [bucket|]; cbn.
  - rewrite Hkey. eexists. split; [reflexivity|]. split; [by apply reply_app|done].
  - eexists. split; [reflexivity|]. split; [by apply reply_app|done].
Qed.

(** X11: a cursor can be read in several [Next] commands: as long as the
    first [n1] pairs have keys, the loop for [n1 + n2] keys does what the
    loop for [n1] keys followed by the loop for [n2] keys on the cursor and
    the encoder it left does, errors of the writer included. *)
Theorem Next_loop_resumes (n1 n2 : nat) : forall (cursor : BoltCursor) (e : Encoder),
  Forall (fun kv => is_Some (fst kv)) (fst (advance n1 cursor)) ->
  Next_loop (n1 + n2) cursor e
  = match Next_loop n1 cursor e with
    | (None, cursor1, e1) => Next_loop n2 cursor1 e1
    | r => r
    end.
Proof.
  induction n1 as [|n1 IH]; intros cursor e Hkeys; [done|].
  cbn [Nat.add Next_loop advance] in *.
  destruct (cursor_Next cursor) as [[key value] cursor1].
  destruct (advance n1 cursor1) as [l cursor2] eqn:Hadv. cbn in Hkeys.
  apply Forall_cons in Hkeys as [[k Hk] Hkeys]. cbn in Hk. subst key.
  destruct (Encode (TBytes (Some k)) e) as [[err|] e1]; [done|].
  destruct (Encode (TBytes value) e1) as [[err|] e2]; [done|].
  apply IH. by rewrite Hadv.
Qed.

Lemma incr64_range (x : Z) : 0 <= incr64 x < two64.
Proof. unfold incr64. apply Z.mod_pos_bound. unfold two64. lia. Qed.

Lemma step_Bucket_found (s : session) (t : Z) (name : gobytes) (tx : BoltTx)
    (bucket : BoltBucket) (rest : list token) (r : nat) :
  decoder s = TUint (tag CmdBucket) :: TUint t :: TBytes name :: rest ->
  0 <= t < two64 ->
  transactions s !! t = Some tx ->
  tx_Bucket tx name = Some bucket ->
  room (encoder s) = S r ->
  exists s1,
    step s = Continue s1 /\ decoder s1 = rest /\
    buckets s1 = <[incr64 (lastHandle s) := bucket]> (buckets s) /\
    encoder s1 = {| written := written (encoder s) ++ [TUint (incr64 (lastHandle s))];
                    room := r |} /\
    lastError s1 = None.
Proof.
  intros Hd Ht Htx Hb Hr.
  rewrite (step_cmd CmdBucket s _ Hd). cbn [exec]. unfold doBucket, bind.
  rewrite (decode_uint64_ok t (TBytes name :: rest)) by done.
  unfold decode, Decode_bytes, encode, Encode.
  cbn [decoder transactions encoder set_decoder]. rewrite Htx, Hb. cbn. rewrite Hr.
  eexists. split; [reflexivity|]. done.
Qed.

Lemma step_Get_found (s : session) (h : Z) (key : gobytes)
    (bucket : BoltBucket) (rest : list token) (r : nat) :
  decoder s = TUint (tag CmdGet) :: TUint h :: TBytes key :: rest ->
  0 <= h < two64 ->
  buckets s !! h = Some bucket ->
  room (encoder s) = S r ->
  exists s1,
    step s = Continue s1 /\ decoder s1 = rest /\
    encoder s1 = {| written := written (encoder s) ++ [TBytes (bucket_Get bucket key)];
                    room := r |} /\
    lastError s1 = None.
Proof.
  intros Hd Hh Hb Hr.
  rewrite (step_cmd CmdGet s _ Hd). cbn [exec]. unfold doGet, bind.
  rewrite (decode_uint64_ok h (TBytes key :: rest)) by done.
  unfold decode, Decode_bytes, encode, Encode.
  cbn [decoder buckets encoder set_decoder]. rewrite Hb. cbn. rewrite Hr.
  eexists. split; [reflexivity|]. done.
Qed.

(** X12: a bucket is read through the handle that [Bucket] has just
    returned: a [Bucket] on an open transaction and an existing bucket,
    followed by a [Get] on the handle replied, answers the handle and then
    the value that the store's bucket holds for the key (nil if it holds
    none), and leaves [lastError] nil. *)
Theorem Get_through_new_handle (s : session) (t : Z) (name key : gobytes)
    (tx : BoltTx) (bucket : BoltBucket) (rest : list token) :
  decoder s = TUint (tag CmdBucket) :: TUint t :: TBytes name
              :: TUint (tag CmdGet) :: TUint (incr64 (lastHandle s)) :: TBytes key
              :: rest ->
  0 <= t < two64 ->
  transactions s !! t = Some tx ->
  tx_Bucket tx name = Some bucket ->
  (2 <= room (encoder s))%nat ->
  goes_on 2 s = true /\
  written (encoder (after 2 s))
  = written (encoder s)
    ++ [TUint (incr64 (lastHandle s)); TBytes (bucket_Get bucket key)] /\
  lastError (after 2 s) = None /\
  decoder (after 2 s) = rest.
Proof.
  intros Hd Ht Htx Hb Hroom.
  destruct (room (encoder s)) as [|[|r]] eqn:Hr; [lia|lia|].
  destruct (step_Bucket_found s t name tx bucket _ (S r) Hd Ht Htx Hb Hr)
    as (s1 & Hstep1 & Hd1 & Hb1 & He1 & _).
  destruct (step_Get_found s1 (incr64 (lastHandle s)) key bucket rest r)
    as (s2 & Hstep2 & Hd2 & He2 & Herr2).
  { done. } { apply incr64_range. }
  { rewrite Hb1. apply lookup_insert_eq. } { by rewrite He1. }
  cbn [goes_on after]. rewrite Hstep1, Hstep2.
  split; [done|]. rewrite He2, He1. cbn. rewrite <- app_assoc. done.
Qed.

Lemma step_Cursor_found (s : session) (b : Z) (bucket : BoltBucket)
    (rest : list token) (r : nat) :
  decoder s = TUint (tag CmdCursor) :: TUint b :: rest ->
  0 <= b < two64 ->
  buckets s !! b = Some bucket ->
  room (encoder s) = S r ->
  exists s1,
    step s = Continue s1 /\ decoder s1 = rest /\
    cursors s1 = <[incr64 (lastHandle s) := bucket_Cursor bucket]> (cursors s) /\
    encoder s1 = {| written := written (encoder s) ++ [TUint (incr64 (lastHandle s))];
                    room := r |}.
Proof.
  intros Hd Hb Hbk Hr.
  rewrite (step_cmd CmdCursor s _ Hd). cbn [exec]. unfold doCursor, bind.
  rewrite (decode_uint64_ok b rest) by done.
  unfold encode, Encode. cbn [buckets encoder set_decoder]. rewrite Hbk. cbn. rewrite Hr.
  eexists. split; [reflexivity|]. done.
Qed.

Lemma step_Seek_found (s : session) (h : Z) (seekKey : gobytes)
    (cursor : BoltCursor) (rest : list token) (r : nat) :
  decoder s = TUint (tag CmdSeek) :: TUint h :: TBytes seekKey :: rest ->
  0 <= h < two64 ->
  cursors s !! h = Some cursor ->
  room (encoder s) = S (S r) ->
  exists s1,
    step s = Continue s1 /\ decoder s1 = rest /\
    cursors s1 = <[h := snd (cursor_Seek cursor seekKey)]> (cursors s) /\
    encoder s1 = {| written := written (encoder s)
                               ++ [TBytes (fst (fst (cursor_Seek cursor seekKey)));
                                   TBytes (snd (fst (cursor_Seek cursor seekKey)))];
                    room := r |} /\
    lastError s1 = None.
Proof.
  intros Hd Hh Hc Hr.
  rewrite (step_cmd CmdSeek s _ Hd). cbn [exec]. unfold doSeek, bind.
  rewrite (decode_uint64_ok h (TBytes seekKey :: rest)) by done.
  unfold decode, Decode_bytes, encode, Encode.
  cbn [decoder cursors encoder set_decoder]. rewrite Hc.
  destruct (cursor_Seek cursor seekKey) as [[k v] cursor'].
  cbn. rewrite Hr. cbn.
  eexists. split; [reflexivity|]. rewrite <- app_assoc. done.
Qed.

(** X13: a bucket is walked through the protocol as it is on the store: a
    [Cursor] on a known bucket, a [Seek] on the handle replied and a [Next]
    for [n > 0] keys on it answer the handle, the pair of the store's
    [Seek] on a new cursor of the bucket, and then the [k] pairs that the
    moves of that cursor yield from there: every pair before the last has a
    key, and the last has the nil key if [k < n], so the walk stops at the
    first nil key or after [n] pairs. *)
Theorem Cursor_Seek_Next_walks_bucket (s : session) (b n : Z) (seekKey : gobytes)
    (bucket : BoltBucket) (rest : list token) :
  decoder s = TUint (tag CmdCursor) :: TUint b
              :: TUint (tag CmdSeek) :: TUint (incr64 (lastHandle s)) :: TBytes seekKey
              :: TUint (tag CmdNext) :: TUint (incr64 (lastHandle s)) :: TUint n
              :: rest ->
  0 <= b < two64 ->
  0 < n < two64 ->
  buckets s !! b = Some bucket ->
  (3 + 2 * Z.to_nat n <= room (encoder s))%nat ->
  exists (k : nat) (pairs : list (gobytes * gobytes)) (cursor2 : BoltCursor),
    goes_on 3 s = true /\
    advance k (snd (cursor_Seek (bucket_Cursor bucket) seekKey)) = (pairs, cursor2) /\
    written (encoder (after 3 s))
    = written (encoder s)
      ++ [TUint (incr64 (lastHandle s));
          TBytes (fst (fst (cursor_Seek (bucket_Cursor bucket) seekKey)));
          TBytes (snd (fst (cursor_Seek (bucket_Cursor bucket) seekKey)))]
      ++ pair_tokens pairs /\
    length pairs = k /\
    (1 <= k <= Z.to_nat n)%nat /\
    (forall i kv, pairs !! i = Some kv -> (S i < k)%nat -> is_Some (fst kv)) /\
    ((k < Z.to_nat n)%nat -> exists v, last pairs = Some (None, v)) /\
    cursors (after 3 s) !! incr64 (lastHandle s) = Some cursor2 /\
    lastError (after 3 s) = None.
Proof.
  intros Hd Hb Hn Hbk Hroom.
  destruct (room (encoder s)) as [|[|[|r]]] eqn:Hr; [lia..|].
  pose proof (incr64_range (lastHandle s)) as Hh.
  destruct (step_Cursor_found s b bucket _ (S (S r)) Hd Hb Hbk Hr)
    as (s1 & Hstep1 & Hd1 & Hc1 & He1).
  destruct (step_Seek_found s1 (incr64 (lastHandle s)) seekKey (bucket_Cursor bucket)
              (TUint (tag CmdNext) :: TUint (incr64 (lastHandle s)) :: TUint n :: rest) r)
    as (s2 & Hstep2 & Hd2 & Hc2 & He2 & _).
  { done. } { done. } { rewrite Hc1. apply lookup_insert_eq. } { by rewrite He1. }
  destruct (step_Next_known s2 (incr64 (lastHandle s)) n
              (snd (cursor_Seek (bucket_Cursor bucket) seekKey)) rest)
    as (k & pairs & cursor2 & s3 & Hstep3 & Hadv & Hreply & Hlen & Hk & Hkeys & Hlast & Hc3 & Herr3).
  { done. } { done. } { done. } { rewrite Hc2. apply lookup_insert_eq. }
  { rewrite He2. cbn. lia. }
  exists k, pairs, cursor2.
  cbn [goes_on after]. rewrite Hstep1, Hstep2, Hstep3.
  split; [done|]. split; [done|]. split; [|done].
  pose proof (step_written s2) as Hw. rewrite Hstep3 in Hw. destruct Hw as [[l Hl] _].
  unfold reply in Hreply. rewrite Hl, drop_app_length in Hreply. subst l.
  rewrite Hl, He2, He1. cbn. rewrite <- !app_assoc. done.
Qed.

(** *** What the cascade of [EndTx] removes, and what it keeps *)

Lemma foldl_remove_bucket_buckets (l : list Z) (b : Z) : forall (s : session),
  buckets (foldl remove_bucket s l) !! b
  = if decide (b ∈ l) then None else buckets s !! b.
Proof.
  induction l as [|a l IH]; intros s; cbn [foldl].
  - rewrite decide_False; [done|apply not_elem_of_nil].
  - rewrite IH.
    assert (buckets (remove_bucket s a) = delete a (buckets s)) as ->.
    { unfold remove_bucket. by destruct (cursorsByBucket s !! a). }
    destruct (decide (b ∈ l)) as [Hin|Hnin].
    + rewrite decide_True; [done|by right].
    + destruct (decide (b = a)) as [->|Hne].
      * rewrite decide_True; [apply lookup_delete_eq|by left].
      * rewrite decide_False; [by rewrite lookup_delete_ne|].
        by intros [?|?]%elem_of_cons.
Qed.

Lemma remove_cursors_other (c : Z) (l : list Z) : forall (cs : gmap Z BoltCursor),
  c ∉ l -> remove_cursors l cs !! c = cs !! c.
Proof.
  induction l as [|a l IH]; intros cs Hc; [done|].
  apply not_elem_of_cons in Hc as [Hne Hc].
  change (remove_cursors (a :: l) cs) with (remove_cursors l (delete a cs)).
  rewrite IH by done. by rewrite lookup_delete_ne.
Qed.

Lemma foldl_remove_bucket_cursors (l : list Z) (c : Z) : forall (s : session),
  ~ cursor_of s l c ->
  cursors (foldl remove_bucket s l) !! c = cursors s !! c.
Proof.
  induction l as [|a l IH]; intros s Hc; cbn [foldl]; [done|].
  rewrite IH.
  - unfold remove_bucket.
    destruct (cursorsByBucket s !! a) as [chs|] eqn:Hchs; cbn; [|done].
    apply remove_cursors_other. intros Hin. apply Hc.
    exists a, chs. split; [by left|done].
  - intros (b & chs & Hb & Hchs & Hin). apply Hc.
    exists b, chs. split; [by right|]. split; [|done].
    destruct (remove_bucket_shrinks s a) as (_ & _ & Hsub & _).
    by eapply lookup_weaken.
Qed.

Lemma foldl_remove_bucket_cursors_gone (l : list Z) (c : Z) : forall (s : session),
  cursor_of s l c -> cursors (foldl remove_bucket s l) !! c = None.
Proof.
  intros s (b & chs & Hb & Hchs & Hin).
  by destruct (foldl_remove_bucket_gone b c chs l s Hb Hchs Hin).
Qed.

Lemma remove_buckets_spec (t : Z) (s : session) :
  let bhs := default [] (bucketsByTx s !! t) in
  (forall b, buckets (remove_buckets t s) !! b
             = if decide (b ∈ bhs) then None else buckets s !! b) /\
  (forall c, cursor_of s bhs c -> cursors (remove_buckets t s) !! c = None) /\
  (forall c, ~ cursor_of s bhs c -> cursors (remove_buckets t s) !! c = cursors s !! c).
Proof.
  unfold remove_buckets. destruct (bucketsByTx s !! t) as [bhs|]; cbn.
  - split; [|split].
    + intros b. by rewrite foldl_remove_bucket_buckets.
    + intros c Hc. by apply foldl_remove_bucket_cursors_gone.
    + intros c Hc. by rewrite foldl_remove_bucket_cursors.
  - split; [|split].
    + intros b. first [done | rewrite decide_False; [done|apply not_elem_of_nil]].
    + intros c (b & chs & Hb & _). by apply elem_of_nil in Hb.
    + done.
Qed.

(** X14: a successful [EndTx] removes the transaction, the buckets recorded
    under it and the cursors recorded under these buckets, and nothing
    else: every other transaction, bucket and cursor is as before, and the
    counter is not moved. *)
Theorem EndTx_removes_only_descendants (s s1 : session) (t : Z) (tx : BoltTx)
    (rest : list token) :
  decoder s = TUint (tag CmdEndTx) :: TUint t :: rest ->
  transactions s !! t = Some tx ->
  step s = Continue s1 ->
  let bhs := default [] (bucketsByTx s !! t) in
  (forall t', transactions s1 !! t'
              = if decide (t' = t) then None else transactions s !! t') /\
  (forall b, buckets s1 !! b = if decide (b ∈ bhs) then None else buckets s !! b) /\
  (forall c, cursor_of s bhs c -> cursors s1 !! c = None) /\
  (forall c, ~ cursor_of s bhs c -> cursors s1 !! c = cursors s !! c) /\
  lastHandle s1 = lastHandle s.
Proof.
  intros Hd Htx Hstep bhs.
  destruct (step_EndTx s s1 t tx rest Hd Htx Hstep) as (d' & _ & ->). cbn.
  split.
  { intros t'. case_decide as Ht; subst.
    - apply lookup_delete_eq.
    - by rewrite lookup_delete_ne. }
  destruct (remove_buckets_spec t (set_decoder rest s)) as (Hb & Hg & Hk).
  split; [exact Hb|]. split; [exact Hg|]. split; [exact Hk|].
  by destruct (remove_buckets_shrinks t (set_decoder rest s)) as (_&_&_&_&_&->&_).
Qed.

(** *** The handles in the tables *)

Ltac table_mono :=
  let h := fresh "h" in let Hh := fresh "Hh" in
  intros h Hh;
  first
    [ exact Hh
    | destruct Hh as [? Hh]; apply lookup_delete_Some in Hh as [_ Hh]; eauto; fail
    | destruct Hh as [? Hh]; eexists; eapply lookup_weaken; eassumption
    | match type of Hh with
      | is_Some (<[?k:=_]> _ !! _) =>
          destruct (decide (h = k)) as [->|];
          [ eauto; fail
          | rewrite lookup_insert_ne in Hh by done; exact Hh ]
      end ].

Ltac table_adds :=
  let h := fresh "h" in let Hh := fresh "Hh" in
  intros h Hh;
  match type of Hh with
  | is_Some (<[?k:=_]> _ !! _) =>
      destruct (decide (h = k)) as [->|];
      [ right; done
      | rewrite lookup_insert_ne in Hh by done; left; exact Hh ]
  end.

Lemma exec_allocation (c : Command) (s s' : session) :
  exec c s = (Ok tt, s') -> allocation s s'.
Proof.
  intros He. unfold allocation, adds_nothing, adds_at.
  destruct c; exec_cases.
  all: try match goal with
  | |- context [remove_buckets ?t ?s0] =>
      destruct (remove_buckets_shrinks t s0) as (Hs1&Hs2&Hs3&Hs4&Hs5&Hs6&_); cbn in *
  end.
  all: first
    [ left; split; [done|]; split; [table_mono|]; split; table_mono
    | right; split; [done|]; left; split; [table_adds|]; split; table_mono
    | right; split; [done|]; right; left; split; [table_mono|]; split; [table_adds|table_mono]
    | right; split; [done|]; right; right; split; [table_mono|]; split; [table_mono|table_adds]
    | idtac ].
  left. split; [exact Hs6|]. split; [|split].
  - intros h [x Hx]. apply lookup_delete_Some in Hx as [_ Hx]. rewrite Hs5 in Hx. eauto.
  - intros h [x Hx]. exists x. by eapply lookup_weaken.
  - intros h [x Hx]. exists x. by eapply lookup_weaken.
Qed.

Lemma step_tables_fresh (s s' : session) :
  step s = Continue s' -> tables_fresh s -> tables_fresh s'.
Proof.
  intros Hstep (Hpos & Hroom & Hreg & Htb & Htc & Hbc).
  destruct (step_frame _ _ Hstep) as [_ Hlen].
  apply step_inv in Hstep as (c & v & d & Hd & _ & He).
  apply exec_allocation in He. unfold allocation, adds_nothing, adds_at in He.
  cbn in He. unfold tables_fresh, registered in *.
  assert (forall h, is_Some (transactions s !! h) -> 1 <= h <= lastHandle s) as Ht by eauto.
  assert (forall h, is_Some (buckets s !! h) -> 1 <= h <= lastHandle s) as Hb by eauto.
  assert (forall h, is_Some (cursors s !! h) -> 1 <= h <= lastHandle s) as Hc by eauto.
  destruct He as [(Hl & At & Ab & Ac)|(Hl & Halloc)].
  - rewrite Hl. split; [done|]. split; [lia|]. split; [|split; [|split]].
    + intros h [?%At|[?%Ab|?%Ac]]; eauto.
    + intros h ?%At ?%Ab. eauto.
    + intros h ?%At ?%Ac. eauto.
    + intros h ?%Ab ?%Ac. eauto.
  - rewrite incr64_small in Hl by lia. rewrite Hl in *.
    split; [lia|]. split; [lia|].
    destruct Halloc as [(At & Ab & Ac)|[(At & Ab & Ac)|(At & Ab & Ac)]].
    + split; [|split; [|split]].
      * intros h [[?%Ht| ->]%At|[?%Ab%Hb|?%Ac%Hc]]; lia.
      * intros h [Hh| ->]%At Hh'%Ab; [eauto|]. apply Hb in Hh'. lia.
      * intros h [Hh| ->]%At Hh'%Ac; [eauto|]. apply Hc in Hh'. lia.
      * intros h ?%Ab ?%Ac. eauto.
    + split; [|split; [|split]].
      * intros h [?%At%Ht|[[?%Hb| ->]%Ab|?%Ac%Hc]]; lia.
      * intros h Hh'%At [Hh| ->]%Ab; [eauto|]. apply Ht in Hh'. lia.
      * intros h ?%At ?%Ac. eauto.
      * intros h [Hh| ->]%Ab Hh'%Ac; [eauto|]. apply Hc in Hh'. lia.
    + split; [|split; [|split]].
      * intros h [?%At%Ht|[?%Ab%Hb|[?%Hc| ->]%Ac]]; lia.
      * intros h ?%At ?%Ab. eauto.
      * intros h Hh'%At [Hh| ->]%Ac; [eauto|]. apply Ht in Hh'. lia.
      * intros h Hh'%Ab [Hh| ->]%Ac; [eauto|]. apply Hb in Hh'. lia.
Qed.

Lemma steps_tables_fresh (s s' : session) :
  rtc steps_to s s' -> tables_fresh s -> tables_fresh s'.
Proof. induction 1; eauto using step_tables_fresh. Qed.

(** X15: in a session whose input has fewer than 2^64 values, at every
    turn of the loop the handles that name something lie between 1 and the
    counter, so that 0 names nothing, and no handle names two resources of
    different kinds at once. *)
Theorem handles_name_one_resource (d : DB) (input : list token) (out : Encoder)
    (s : session) :
  Z.of_nat (length input) < two64 ->
  rtc steps_to (new_session d input out) s ->
  tables_fresh s /\ ~ registered s 0.
Proof.
  intros Hlen Hrtc.
  assert (tables_fresh s) as Hfresh.
  { apply (steps_tables_fresh _ _ Hrtc).
    unfold tables_fresh, registered. cbn.
    split; [done|]. split; [done|]. split.
    - intros h [Hh|[Hh|Hh]]; rewrite lookup_empty in Hh; by destruct Hh.
    - split_and!; intros h Hh; rewrite lookup_empty in Hh; by destruct Hh. }
  split; [done|]. intros Hreg.
  destruct Hfresh as (_ & _ & Hbound & _). apply Hbound in Hreg. lia.
Qed.

(** *** No bucket without its transaction, no cursor without its bucket *)

Lemma is_Some_insert_mono {A} (m : gmap Z A) (k h : Z) (x : A) :
  is_Some (m !! h) -> is_Some (<[k:=x]> m !! h).
Proof.
  intros Hh. destruct (decide (h = k)) as [->|Hne].
  - rewrite lookup_insert_eq. eauto.
  - by rewrite lookup_insert_ne.
Qed.

Ltac use_owner Hown x Hx :=
  let p := fresh "p" in let l := fresh "l" in
  let Hp := fresh "Hp" in let Hl := fresh "Hl" in let Hin := fresh "Hin" in
  destruct (Hown x Hx) as (p & l & Hp & Hl & Hin);
  first
    [ exists p, l; split; [first [exact Hp | by apply is_Some_insert_mono]|];
      split; [exact Hl|exact Hin]
    | match goal with
      | |- exists _ _, _ /\ <[?k:=?l']> _ !! _ = _ /\ _ =>
          destruct (decide (p = k)) as [->|];
          [ exists k, l'; split; [first [exact Hp | by apply is_Some_insert_mono]|];
            split; [apply lookup_insert_eq|simplify_eq; set_solver]
          | exists p, l; split; [first [exact Hp | by apply is_Some_insert_mono]|];
            split; [by rewrite lookup_insert_ne|exact Hin] ]
      end ].

Ltac owner_goal Hown :=
  let x := fresh "x" in let Hx := fresh "Hx" in
  intros x Hx;
  first
    [ use_owner Hown x Hx
    | match type of Hx with
      | is_Some (<[?k:=_]> _ !! _) =>
          destruct (decide (x = k)) as [->|];
          [ first
              [ eexists _, _; split; [|split; [apply lookup_insert_eq|set_solver]];
                eauto; fail
              | clear Hx; assert (Hx : is_Some (_ !! k)) by eauto;
                use_owner Hown k Hx ]
          | rewrite lookup_insert_ne in Hx by done; use_owner Hown x Hx ]
      end ].

Lemma exec_no_orphans (c : Command) (s s' : session) :
  exec c s = (Ok tt, s') -> no_orphans s -> no_orphans s'.
Proof.
  intros He [Hb Hc]. unfold no_orphans.
  destruct c; exec_cases; try (split; assumption).
  all: try (split; [owner_goal Hb|owner_goal Hc]; fail).
  rename a into t, l into rest.
  destruct (remove_buckets_spec t (set_decoder rest s)) as (Hbk & Hgone & _).
  destruct (remove_buckets_index t (set_decoder rest s)) as (Hbt & Hcb).
  destruct (remove_buckets_shrinks t (set_decoder rest s)) as (Hsub&_&_&_&Htr&_).
  cbn in Hbk, Hgone, Hbt, Hcb, Hsub, Htr. split.
  - intros b0 [x Hx]. rewrite Hbk in Hx. case_decide as Hin0; [done|].
    destruct (Hb b0) as (t' & l0 & Ht' & Hl0 & Hin); [eauto|].
    assert (t' <> t) as Hne.
    { intros ->. rewrite Hl0 in Hin0. done. }
    exists t', l0. rewrite Htr, lookup_delete_ne, Hbt by done. done.
  - intros c [x Hx].
    destruct (Hc c) as (b0 & l0 & Hb0 & Hl0 & Hin); [eexists; by eapply lookup_weaken|].
    destruct (decide (b0 ∈ default [] (bucketsByTx s !! t))) as [Hin0|Hnin].
    + rewrite Hgone in Hx; [done|]. by exists b0, l0.
    + exists b0, l0. rewrite Hbk, decide_False by done.
      rewrite Hcb; [done|]. intros bhs' Hbhs. by rewrite Hbhs in Hnin.
Qed.

Lemma steps_no_orphans (s s' : session) :
  rtc steps_to s s' -> no_orphans s -> no_orphans s'.
Proof.
  induction 1 as [|a b c Hstep _ IH]; [done|].
  intros Ha. apply IH.
  apply step_inv in Hstep as (cmd & v & d & Hd & _ & He).
  by apply (exec_no_orphans cmd (set_decoder d a) b).
Qed.

(** X16: at every turn of the loop, every registered bucket is recorded
    under an open transaction and every registered cursor under a registered
    bucket; hence when no transaction is open, no bucket and no cursor is
    left. *)
Theorem no_bucket_without_transaction (d : DB) (input : list token) (out : Encoder)
    (s : session) :
  rtc steps_to (new_session d input out) s ->
  no_orphans s /\
  (transactions s = ∅ -> buckets s = ∅ /\ cursors s = ∅).
Proof.
  intros Hrtc.
  assert (no_orphans s) as Hno.
  { apply (steps_no_orphans _ _ Hrtc). split; intros x Hx; cbn in Hx;
      rewrite lookup_empty in Hx; by destruct Hx. }
  split; [done|]. intros Hempty. destruct Hno as [Hb Hc].
  assert (buckets s = ∅) as Hbe.
  { apply map_empty. intros b. apply eq_None_not_Some. intros Hx.
    destruct (Hb b Hx) as (t & l & Ht & _). rewrite Hempty, lookup_empty in Ht.
    by destruct Ht. }
  split; [done|].
  apply map_empty. intros c. apply eq_None_not_Some. intros Hx.
  destruct (Hc c Hx) as (b & l & Hbk & _). rewrite Hbe, lookup_empty in Hbk.
  by destruct Hbk.
Qed.

(** X22: what [Bucket] and [Cursor] create is recorded where the cascade of
    [EndTx] looks for it: after a successful [Bucket] on the transaction
    [t], the new handle names a bucket and stands in the list of [t]; after
    a successful [Cursor] on the bucket [b], the new handle names a cursor
    and stands in the list of [b]. *)
Theorem created_is_recorded (s s' : session) :
  step s = Continue s' ->
  lastError s' = None ->
  (forall t rest,
     decoder s = TUint (tag CmdBucket) :: TUint t :: rest ->
     is_Some (buckets s' !! lastHandle s') /\
     exists l, bucketsByTx s' !! t = Some l /\ lastHandle s' ∈ l) /\
  (forall b rest,
     decoder s = TUint (tag CmdCursor) :: TUint b :: rest ->
     is_Some (cursors s' !! lastHandle s') /\
     exists l, cursorsByBucket s' !! b = Some l /\ lastHandle s' ∈ l).
Proof.
  intros Hstep Herr. split.
  - intros t rest Hd. by eapply step_Bucket_recorded.
  - intros b rest Hd. by eapply step_Cursor_recorded.
Qed.

Lemma Server_loop_Continue (fuel : nat) (s s' : session) :
  step s = Continue s' -> Server_loop (S fuel) s = Server_loop fuel s'.
Proof. intros Hstep. cbn. by rewrite Hstep. Qed.

Lemma Server_loop_Return (fuel : nat) (s s' : session) (r : option error) :
  step s = Return r s' -> Server_loop (S fuel) s = Some (r, run_deferred s').
Proof. intros Hstep. cbn. by rewrite Hstep. Qed.

Lemma step_end_of_input (s : session) :
  decoder s = [] -> step s = Return None (set_decoder [] s).
Proof. intros Hd. unfold step. by rewrite Hd. Qed.

Lemma step_BeginTx_begun (s : session) (rest : list token) (tx : BoltTx)
    (d1 : DB) (r : nat) :
  decoder s = TUint (tag CmdBeginTx) :: rest ->
  db_Begin (db s) = (inr tx, d1) ->
  room (encoder s) = S r ->
  step s = Continue
    (set_encoder {| written := written (encoder s) ++ [TUint (incr64 (lastHandle s))];
                    room := r |}
       (set_transactions (<[incr64 (lastHandle s) := tx]> (transactions s))
          (set_lastHandle (incr64 (lastHandle s))
             (set_deferred (tx :: deferred s)
                (set_lastError None (set_db d1 (set_decoder rest s))))))).
Proof.
  intros Hd Hbegin Hr. rewrite (step_cmd CmdBeginTx s _ Hd). cbn [exec].
  unfold doBeginTx. cbn [db set_decoder]. rewrite Hbegin.
  unfold encode, Encode. cbn. rewrite Hr. reflexivity.
Qed.

Lemma step_BeginTx_failed (s : session) (rest : list token) (err : error)
    (d1 : DB) (r : nat) :
  decoder s = TUint (tag CmdBeginTx) :: rest ->
  db_Begin (db s) = (inl err, d1) ->
  room (encoder s) = S r ->
  step s = Continue
    (set_encoder {| written := written (encoder s) ++ [TUint 0]; room := r |}
       (set_lastError (Some err) (set_db d1 (set_decoder rest s)))).
Proof.
  intros Hd Hbegin Hr. rewrite (step_cmd CmdBeginTx s _ Hd). cbn [exec].
  unfold doBeginTx. cbn [db set_decoder]. rewrite Hbegin.
  unfold encode, Encode. cbn. rewrite Hr. reflexivity.
Qed.

Lemma step_EndTx_ended (s : session) (t : Z) (rest : list token) (tx : BoltTx)
    (d1 : DB) :
  decoder s = TUint (tag CmdEndTx) :: TUint t :: rest ->
  0 <= t < two64 ->
  transactions s !! t = Some tx ->
  tx_Rollback tx (db s) = (None, d1) ->
  step s = Continue
    (set_lastError None
       (set_transactions (delete t (transactions s))
          (set_db d1 (remove_buckets t (set_decoder rest s))))).
Proof.
  intros Hd Ht Htx Hrb. rewrite (step_cmd CmdEndTx s _ Hd). cbn [exec].
  unfold doEndTx, bind. rewrite (decode_uint64_ok t rest) by done.
  cbn [transactions set_decoder]. rewrite Htx. cbv zeta.
  destruct (remove_buckets_shrinks t (set_decoder rest s))
    as (_&_&_&_&Htr&_&_&_&Hdb&_). cbn in Htr, Hdb.
  change (set_decoder rest (set_decoder (TUint t :: rest) s)) with (set_decoder rest s).
  rewrite Hdb, Hrb, Htr. reflexivity.
Qed.

Lemma remove_buckets_none (t : Z) (s : session) :
  bucketsByTx s !! t = None -> remove_buckets t s = s.
Proof. intros Hn. unfold remove_buckets. by rewrite Hn. Qed.

Lemma step_LastError_asked (s : session) (rest : list token) (r : nat) :
  decoder s = TUint (tag CmdLastError) :: rest ->
  room (encoder s) = S r ->
  step s = Continue
    (set_encoder {| written := written (encoder s) ++ [TText (Sprintf_v (lastError s))];
                    room := r |}
       (set_decoder rest s)).
Proof.
  intros Hd Hr. rewrite (step_cmd CmdLastError s _ Hd). cbn [exec].
  unfold doLastError, encode, Encode. cbn. rewrite Hr. reflexivity.
Qed.

(** X17: the client and the server of a [View] agree on the stream: the
    server answers the commands of [View] with the handle 1, and [View]
    writes these commands on that answer and returns the error of its
    closure.  The server then has no transaction left; the transaction that
    [EndTx] has rolled back is still among the deferred calls and is rolled
    back a second time when [Server] returns. *)
Theorem View_against_Server (d d1 d2 : DB) (tx : BoltTx) (opErr : option error)
    (r : nat) :
  db_Begin d = (inr tx, d1) ->
  tx_Rollback tx d1 = (None, d2) ->
  exists sf,
    Server d [TUint (tag CmdBeginTx); TUint (tag CmdEndTx); TUint 1]
           {| written := []; room := S r |} = Some (None, sf) /\
    written (encoder sf) = [TUint 1] /\
    transactions sf = ∅ /\
    lastError sf = None /\
    db sf = snd (tx_Rollback tx d2) /\
    Client.View (fun _ c => (opErr, c))
      {| Client.in_ := written (encoder sf);
         Client.out := {| written := []; room := 3 |} |}
    = (opErr,
       {| Client.in_ := [];
          Client.out := {| written := [TUint (tag CmdBeginTx); TUint (tag CmdEndTx);
                                       TUint 1];
                           room := 0 |} |}).
Proof.
  intros Hbegin Hrb. eexists. split.
  { unfold Server. cbn [length].
    erewrite Server_loop_Continue;
      [|by eapply (step_BeginTx_begun _ _ tx d1 r)].
    change (incr64 (lastHandle (new_session d
              [TUint (tag CmdBeginTx); TUint (tag CmdEndTx); TUint 1]
              {| written := []; room := S r |}))) with 1.
    erewrite Server_loop_Continue;
      [|eapply (step_EndTx_ended _ 1 [] tx d2);
        [reflexivity|unfold two64; lia|apply lookup_insert_eq|exact Hrb]].
    rewrite remove_buckets_none by apply lookup_empty.
    erewrite Server_loop_Return; [reflexivity|].
    by apply step_end_of_input. }
  cbn.
  split; [done|]. split; [by rewrite delete_insert_eq, delete_empty|].
  split; [done|]. split; [by destruct (tx_Rollback tx d2)|].
  reflexivity.
Qed.

(** X18: when the store cannot begin a transaction, the error reaches the
    caller of [View]: the server answers [BeginTx] with the handle 0 and
    [LastError] with the text of the store's error, no transaction is
    registered and no rollback deferred, and [View], without running its
    closure, returns an error with that text. *)
Theorem View_against_Server_begin_error (d d1 : DB) (err : error)
    (f : Client.Tx -> Client.DB -> option error * Client.DB) (r : nat) :
  db_Begin d = (inl err, d1) ->
  exists sf,
    Server d [TUint (tag CmdBeginTx); TUint (tag CmdLastError)]
           {| written := []; room := S (S r) |} = Some (None, sf) /\
    written (encoder sf) = [TUint 0; TText (Sprintf_v (Some err))] /\
    transactions sf = ∅ /\
    db sf = d1 /\
    Client.View f
      {| Client.in_ := written (encoder sf);
         Client.out := {| written := []; room := 2 |} |}
    = (Some (Errorf (Sprintf_v (Some err))),
       {| Client.in_ := [];
          Client.out := {| written := [TUint (tag CmdBeginTx); TUint (tag CmdLastError)];
                           room := 0 |} |}).
Proof.
  intros Hbegin. eexists. split.
  { unfold Server. cbn [length].
    erewrite Server_loop_Continue;
      [|by eapply (step_BeginTx_failed _ _ err d1 (S r))].
    erewrite Server_loop_Continue;
      [|by eapply (step_LastError_asked _ [] r)].
    erewrite Server_loop_Return; [reflexivity|].
    by apply step_end_of_input. }
  cbn. done.
Qed.

(** *** The buckets and cursors that the commands of a session created *)

Lemma exec_closed (c : Command) (s s' : session) :
  exec c s = (Ok tt, s') ->
  0 <= lastHandle s -> lastHandle s + 1 < two64 ->
  lastHandle s <= lastHandle s' /\
  (forall h, h <= lastHandle s ->
     (transactions s !! h = None -> transactions s' !! h = None) /\
     (buckets s !! h = None -> buckets s' !! h = None) /\
     (cursors s !! h = None -> cursors s' !! h = None)).
Proof.
  intros He Hpos Hroom. apply exec_allocation in He.
  unfold allocation, adds_nothing, adds_at in He.
  assert (forall {A} (m m' : gmap Z A) h,
            (is_Some (m' !! h) -> is_Some (m !! h)) -> m !! h = None -> m' !! h = None)
    as Hmono.
  { intros A m m' h Hm Hn. apply eq_None_not_Some. intros Hs%Hm.
    rewrite Hn in Hs. by destruct Hs. }
  destruct He as [(Hl & At & Ab & Ac)|(Hl & Halloc)].
  - rewrite Hl. split; [lia|]. intros h Hh. split_and!; apply Hmono; eauto.
  - rewrite incr64_small in Hl by lia. rewrite Hl in *. split; [lia|].
    intros h Hh.
    destruct Halloc as [(At & Ab & Ac)|[(At & Ab & Ac)|(At & Ab & Ac)]];
      split_and!; apply Hmono; eauto; intros [?| ->]%At || intros [?| ->]%Ab
      || intros [?| ->]%Ac; first [done | lia].
Qed.

Lemma step_closed (s s' : session) :
  step s = Continue s' -> tables_fresh s ->
  lastHandle s <= lastHandle s' /\
  (forall h, h <= lastHandle s ->
     (transactions s !! h = None -> transactions s' !! h = None) /\
     (buckets s !! h = None -> buckets s' !! h = None) /\
     (cursors s !! h = None -> cursors s' !! h = None)).
Proof.
  intros Hstep (Hpos & Hroom & _).
  destruct (step_frame _ _ Hstep) as [_ Hlen].
  apply step_inv in Hstep as (c & v & d & Hd & _ & He).
  apply (exec_closed c (set_decoder d s) s' He); cbn; lia.
Qed.

Lemma steps_closed (s s' : session) :
  rtc steps_to s s' -> tables_fresh s ->
  lastHandle s <= lastHandle s' /\
  (forall h, h <= lastHandle s ->
     (transactions s !! h = None -> transactions s' !! h = None) /\
     (buckets s !! h = None -> buckets s' !! h = None) /\
     (cursors s !! h = None -> cursors s' !! h = None)).
Proof.
  induction 1 as [s|s1 s2 s3 Hstep Hrtc IH]; intros Hfresh.
  - split; [lia|]. done.
  - destruct (step_closed _ _ Hstep Hfresh) as [Hle Hc].
    destruct (IH (step_tables_fresh _ _ Hstep Hfresh)) as [Hle' Hc'].
    split; [lia|]. intros h Hh.
    destruct (Hc h Hh) as (Ht & Hb & Hcu).
    destruct (Hc' h) as (Ht' & Hb' & Hcu'); [lia|].
    split_and!; eauto.
Qed.

Lemma handle_returned_inv (s s' : session) (cmd : Command) (h : Z) :
  step s = Continue s' ->
  handle_returned s s' = Some (cmd, h) ->
  next_command s = Some cmd /\ lastError s' = None /\ h = lastHandle s'.
Proof.
  intros (c & v & d & Hd & Hc & He)%step_inv Hret.
  unfold handle_returned in Hret. rewrite Hc in Hret.
  destruct (exec_handle _ _ _ He) as [[Hl Herr]|(Hl & Hin & Herr & Hreply)].
  - exfalso. destruct c; try done;
      (destruct Herr as [e He']; [set_solver|]; by rewrite He' in Hret).
  - unfold reply in *. cbn in Hreply. rewrite Herr, Hreply in Hret.
    destruct c; simplify_eq; done.
Qed.

Lemma Bucket_created (s s' : session) (t b : Z) (rest : list token) :
  decoder s = TUint (tag CmdBucket) :: TUint t :: rest ->
  step s = Continue s' ->
  handle_returned s s' = Some (CmdBucket, b) ->
  b = lastHandle s' /\
  is_Some (transactions s !! t) /\
  exists l, bucketsByTx s' !! t = Some l /\ b ∈ l.
Proof.
  intros Hd Hstep Hret.
  destruct (handle_returned_inv _ _ _ _ Hstep Hret) as (_ & Herr & ->).
  split; [done|]. split.
  - rewrite (step_cmd CmdBucket s _ Hd) in Hstep.
    destruct (exec CmdBucket _) as [[[]|err] s1] eqn:He; simplify_eq.
    apply exec_lastError in He. rewrite Herr in He.
    unfold lastError_after, arg_handle in He. cbn in He.
    destruct (transactions s !! t); [eauto|done].
  - by destruct (step_Bucket_recorded s s' t rest Hd Hstep Herr).
Qed.

Lemma Cursor_created (s s' : session) (b c : Z) (rest : list token) :
  decoder s = TUint (tag CmdCursor) :: TUint b :: rest ->
  step s = Continue s' ->
  handle_returned s s' = Some (CmdCursor, c) ->
  c = lastHandle s' /\
  is_Some (buckets s' !! b) /\
  exists l, cursorsByBucket s' !! b = Some l /\ c ∈ l.
Proof.
  intros Hd Hstep Hret.
  destruct (handle_returned_inv _ _ _ _ Hstep Hret) as (_ & Herr & ->).
  split; [done|]. split.
  - rewrite (step_cmd CmdCursor s _ Hd) in Hstep.
    destruct (exec CmdCursor _) as [[[]|err] s1] eqn:He; simplify_eq.
    clear Hret. exec_cases; eauto.
  - by destruct (step_Cursor_recorded s s' b rest Hd Hstep Herr).
Qed.

(** What an [EndTx] that does not end the session does to the tables:
    its transaction is closed, and either nothing else has changed or the
    cascade has run. *)
Lemma exec_EndTx_tables (s s' : session) :
  exec CmdEndTx s = (Ok tt, s') ->
  transactions s' !! arg_handle s = None /\
  ((buckets s' = buckets s /\ cursors s' = cursors s /\
    cursorsByBucket s' = cursorsByBucket s)
   \/
   (exists sd, bucketsByTx sd = bucketsByTx s /\
       cursorsByBucket sd = cursorsByBucket s /\
       buckets s' = buckets (remove_buckets (arg_handle s) sd) /\
       cursors s' = cursors (remove_buckets (arg_handle s) sd))).
Proof.
  intros He. unfold arg_handle. exec_cases.
  - split; [apply lookup_delete_eq|]. right. by eexists (set_decoder _ s).
  - split; [done|]. by left.
Qed.

Lemma new_session_fresh (d : DB) (input : list token) (out : Encoder) :
  Z.of_nat (length input) < two64 -> tables_fresh (new_session d input out).
Proof.
  intros Hlen. unfold tables_fresh, registered. cbn.
  split; [done|]. split; [done|]. split.
  - intros h [Hh|[Hh|Hh]]; rewrite lookup_empty in Hh; by destruct Hh.
  - split_and!; intros h Hh; rewrite lookup_empty in Hh; by destruct Hh.
Qed.

(** A bucket stays recorded under its transaction for as long as the
    transaction is open. *)
Lemma steps_bucket_recorded (t b : Z) (s s' : session) :
  rtc steps_to s s' -> tables_fresh s -> t <= lastHandle s ->
  (exists l, bucketsByTx s !! t = Some l /\ b ∈ l) \/ transactions s !! t = None ->
  (exists l, bucketsByTx s' !! t = Some l /\ b ∈ l) \/ transactions s' !! t = None.
Proof.
  induction 1 as [s|s1 s2 s3 Hstep Hrtc IH]; intros Hfresh Ht Hrec; [done|].
  destruct (step_closed _ _ Hstep Hfresh) as [Hle Hclosed].
  apply IH; [by eapply step_tables_fresh|lia|].
  destruct Hrec as [(l & Hl & Hb)|Hnone].
  - apply step_inv in Hstep as (c & v & d & Hd & _ & He).
    destruct (exec_keeps_recorded _ _ _ He) as [Hkeep _].
    destruct (Hkeep t l b Hl Hb) as [?|[-> Harg]]; [by left|].
    right. apply exec_EndTx_tables in He as [He _]. by rewrite Harg in He.
  - right. by apply (Hclosed t Ht).
Qed.

(** A cursor stays recorded under its bucket until the cascade of an
    [EndTx] removes the bucket, and the cursor with it. *)
Lemma steps_cursor_recorded (b c : Z) (s s' : session) :
  rtc steps_to s s' -> tables_fresh s -> b <= lastHandle s -> c <= lastHandle s ->
  (exists l, cursorsByBucket s !! b = Some l /\ c ∈ l)
  \/ (buckets s !! b = None /\ cursors s !! c = None) ->
  (exists l, cursorsByBucket s' !! b = Some l /\ c ∈ l)
  \/ (buckets s' !! b = None /\ cursors s' !! c = None).
Proof.
  induction 1 as [s|s1 s2 s3 Hstep Hrtc IH]; intros Hfresh Hb Hc Hrec; [done|].
  destruct (step_closed _ _ Hstep Hfresh) as [Hle Hclosed].
  apply IH; [by eapply step_tables_fresh|lia|lia|].
  destruct Hrec as [(l & Hl & Hin)|[Hnb Hnc]].
  - apply step_inv in Hstep as (cmd & v & d & Hd & _ & He).
    destruct (exec_keeps_recorded _ _ _ He) as [_ Hkeep].
    destruct (Hkeep b l c Hl Hin) as [?|[-> (bhs & Hbhs & Hbin)]]; [by left|].
    apply exec_EndTx_tables in He
      as [_ [(_ & _ & Hcb)|(sd & Hbt & Hcb & Hbs & Hcs)]].
    + left. rewrite Hcb. cbn. eauto.
    + right. rewrite Hbs, Hcs.
      destruct (remove_buckets_gone sd (arg_handle (set_decoder d s1)) b c bhs l)
        as (? & ? & _); try done; [by rewrite Hbt|by rewrite Hcb].
  - right. split; [by apply (Hclosed b Hb)|by apply (Hclosed c Hc)].
Qed.

(** The buckets that the session has given out for an open transaction
    are recorded under it, and the counter has passed them. *)
Lemma bucket_of_recorded (d : DB) (input : list token) (out : Encoder)
    (s : session) (t b : Z) :
  Z.of_nat (length input) < two64 ->
  bucket_of (new_session d input out) t b s ->
  is_Some (transactions s !! t) ->
  b <= lastHandle s /\
  exists l, bucketsByTx s !! t = Some l /\ b ∈ l.
Proof.
  intros Hlen (sB & sB' & rest & Hreach & Hd & Hstep & Hret & Hlater) Hopen.
  pose proof (steps_tables_fresh _ _ Hreach (new_session_fresh d input out Hlen))
    as HfreshB.
  pose proof (step_tables_fresh _ _ Hstep HfreshB) as HfreshB'.
  destruct (Bucket_created _ _ _ _ _ Hd Hstep Hret) as (-> & Htx & Hrec).
  destruct (step_closed _ _ Hstep HfreshB) as [Hle _].
  destruct (steps_closed _ _ Hlater HfreshB') as [Hle' _].
  split; [done|].
  destruct (steps_bucket_recorded t (lastHandle sB') _ _ Hlater HfreshB')
    as [?|Hnone]; [|by left|done|].
  - destruct HfreshB as (_ & _ & Hreg & _).
    destruct (Hreg t) as [_ ?]; [by left|lia].
  - rewrite Hnone in Hopen. by destruct Hopen.
Qed.

(** The cursors that the session has given out for a bucket are recorded
    under it, or the bucket and the cursor are gone. *)
Lemma cursor_of_bucket_recorded (d : DB) (input : list token) (out : Encoder)
    (s : session) (b c : Z) :
  Z.of_nat (length input) < two64 ->
  cursor_of_bucket (new_session d input out) b c s ->
  c <= lastHandle s /\
  ((exists l, cursorsByBucket s !! b = Some l /\ c ∈ l)
   \/ (buckets s !! b = None /\ cursors s !! c = None)).
Proof.
  intros Hlen (sC & sC' & rest & Hreach & Hd & Hstep & Hret & Hlater).
  pose proof (steps_tables_fresh _ _ Hreach (new_session_fresh d input out Hlen))
    as HfreshC.
  pose proof (step_tables_fresh _ _ Hstep HfreshC) as HfreshC'.
  destruct (Cursor_created _ _ _ _ _ Hd Hstep Hret) as (-> & Hbk & Hrec).
  destruct (steps_closed _ _ Hlater HfreshC') as [Hle' _].
  split; [done|].
  apply (steps_cursor_recorded b (lastHandle sC') _ _ Hlater HfreshC');
    [|done|by left].
  destruct HfreshC' as (_ & _ & Hreg & _).
  destruct (Hreg b) as [_ ?]; [right; by left|done].
Qed.

(** The cascade of [EndTx(t)], run in a session that has got as far as
    [s0], leaves none of the buckets of [t] and none of their cursors. *)
Lemma remove_buckets_descendants (d : DB) (input : list token) (out : Encoder)
    (s0 : session) (t : Z) (rest : list token) :
  Z.of_nat (length input) < two64 ->
  rtc steps_to (new_session d input out) s0 ->
  is_Some (transactions s0 !! t) ->
  (forall b, bucket_of (new_session d input out) t b s0 ->
     b <= lastHandle s0 /\
     buckets (remove_buckets t (set_decoder rest s0)) !! b = None) /\
  (forall b c, bucket_of (new_session d input out) t b s0 ->
     cursor_of_bucket (new_session d input out) b c s0 ->
     c <= lastHandle s0 /\
     cursors (remove_buckets t (set_decoder rest s0)) !! c = None).
Proof.
  intros Hlen Hreach Hopen.
  destruct (remove_buckets_spec t (set_decoder rest s0)) as (Hbs & Hcs & _).
  cbn in Hbs, Hcs.
  split.
  - intros b Hb.
    destruct (bucket_of_recorded d input out s0 t b Hlen Hb Hopen)
      as (Hle & l & Hl & Hin).
    split; [done|]. rewrite Hbs, Hl. cbn. by rewrite decide_True.
  - intros b c Hb Hc.
    destruct (bucket_of_recorded d input out s0 t b Hlen Hb Hopen)
      as (_ & l & Hl & Hin).
    destruct (cursor_of_bucket_recorded d input out s0 b c Hlen Hc)
      as (Hle & [(chs & Hchs & Hcin)|[_ Hnone]]).
    + split; [done|]. apply Hcs. rewrite Hl. cbn. exists b, chs. done.
    + split; [done|].
      destruct (remove_buckets_shrinks t (set_decoder rest s0)) as (Hsub & _).
      by eapply lookup_weaken_None.
Qed.

Lemma steps_between (n m : nat) : forall (s : session),
  goes_on (n + m) s = true -> rtc steps_to (after n s) (after (n + m) s).
Proof.
  induction n as [|n IH]; intros s Hgo; [by apply after_steps|].
  cbn in *. destruct (step s) as [s'|]; [by apply IH|done].
Qed.

(** C3: in a session whose input has fewer than 2^64 values, let
    [EndTx(t)] be the next command and [t] an open transaction.  The
    buckets of [t] are the handles that the [Bucket] commands on [t] have
    given out so far, whether they have cursors or not, and the cursors of
    a bucket the handles that the [Cursor] commands on it have given out.
    The cascade comes first, the rollback second and the removal of the
    transaction last: the rollback is run on the store, and
    - when it fails the session ends with its error, and in the state
      that is left every bucket of [t] and every cursor of these buckets
      is gone already, while [t] is still registered;
    - when it succeeds the loop goes on, [t] is removed, [lastError] is
      nil, and from then on, after any further commands, no bucket of [t]
      names a bucket and no cursor of one names a cursor: every [Get] or
      [Cursor] on such a bucket sets [lastError] to "bucket not found" and
      every [Seek] or [Next] on such a cursor sets it to
      "cursor not found". *)
Theorem EndTx_releases_descendants (d : DB) (input : list token) (out : Encoder)
    (s0 : session) (t : Z) (tx : BoltTx) (rest : list token) :
  Z.of_nat (length input) < two64 ->
  rtc steps_to (new_session d input out) s0 ->
  decoder s0 = TUint (tag CmdEndTx) :: TUint t :: rest ->
  transactions s0 !! t = Some tx ->
  let init := new_session d input out in
  let cascaded := remove_buckets t (set_decoder rest s0) in
  match tx_Rollback tx (db s0) with
  | (Some err, d') =>
      step s0 = Return (Some err) (set_db d' cascaded) /\
      descendants_gone init s0 t (set_db d' cascaded) /\
      transactions (set_db d' cascaded) !! t = Some tx
  | (None, d') =>
      exists s1,
        s1 = set_lastError None
               (set_transactions (delete t (transactions s0)) (set_db d' cascaded)) /\
        step s0 = Continue s1 /\
        db s1 = d' /\
        transactions s1 = delete t (transactions s0) /\
        lastError s1 = None /\
        forall s2, rtc steps_to s1 s2 ->
          descendants_gone init s0 t s2 /\
          (forall b cmd rest' s3,
             bucket_of init t b s0 ->
             cmd ∈ [CmdGet; CmdCursor] ->
             decoder s2 = TUint (tag cmd) :: TUint b :: rest' ->
             step s2 = Continue s3 ->
             lastError s3 = Some (Errorf "bucket not found")) /\
          (forall b c cmd rest' s3,
             bucket_of init t b s0 ->
             cursor_of_bucket init b c s0 ->
             cmd ∈ [CmdSeek; CmdNext] ->
             decoder s2 = TUint (tag cmd) :: TUint c :: rest' ->
             step s2 = Continue s3 ->
             lastError s3 = Some (Errorf "cursor not found"))
  end.
Proof.
  intros Hlen Hreach Hd Htx init cascaded.
  pose proof (steps_tables_fresh _ _ Hreach (new_session_fresh d input out Hlen))
    as Hfresh0.
  assert (0 <= t < two64) as Ht.
  { destruct Hfresh0 as (_ & Hroom & Hreg & _).
    destruct (Hreg t) as [? ?]; [left; eauto|]. lia. }
  destruct (remove_buckets_descendants d input out s0 t rest Hlen Hreach)
    as [Hgb Hgc]; [eauto|].
  destruct (remove_buckets_shrinks t (set_decoder rest s0))
    as (_&_&_&_&_&Hlh&_).
  destruct (tx_Rollback tx (db s0)) as [[err|] d'] eqn:Hrb.
  - destruct (step_EndTx_rollback_error s0 t tx rest err d' Hd Ht Htx Hrb)
      as [Hstep Hkept].
    split; [exact Hstep|]. split; [|exact Hkept].
    split.
    + intros b Hb. by destruct (Hgb b Hb).
    + intros b c Hb Hc. by destruct (Hgc b c Hb Hc).
  - pose proof (step_EndTx_ended s0 t rest tx d' Hd Ht Htx Hrb) as Hstep.
    eexists. split; [reflexivity|]. split; [exact Hstep|].
    split; [done|]. split; [reflexivity|]. split; [done|].
    intros s2 Hlater.
    pose proof (step_tables_fresh _ _ Hstep Hfresh0) as Hfresh1.
    destruct (steps_closed _ _ Hlater Hfresh1) as [_ Hclosed].
    assert (forall h, h <= lastHandle s0 ->
              h <= lastHandle
                     (set_lastError None
                        (set_transactions (delete t (transactions s0))
                           (set_db d' cascaded)))) as Hup.
    { intros h Hh. change (h <= lastHandle cascaded).
      unfold cascaded. rewrite Hlh. exact Hh. }
    assert (descendants_gone init s0 t s2) as Hgone.
    { split.
      - intros b Hb. destruct (Hgb b Hb) as [Hle Hnone].
        apply (Hclosed b (Hup b Hle)). exact Hnone.
      - intros b c Hb Hc. destruct (Hgc b c Hb Hc) as [Hle Hnone].
        apply (Hclosed c (Hup c Hle)). exact Hnone. }
    split; [exact Hgone|]. destruct Hgone as [Hbs Hcs]. split.
    + intros b cmd rest' s3 Hb Hcmd Hd2 Hstep2.
      eapply step_unknown_bucket; eauto.
    + intros b c cmd rest' s3 Hb Hc Hcmd Hd2 Hstep2.
      eapply step_unknown_cursor; eauto.
Qed.

End MoreServerProperties.

(** * Further properties of the accept loop, the client and the pools *)

(** X19: the accept loop starts one [Server] for every connection accepted,
    in the order of their arrival, and none for a failed [Accept], whether
    or not an interruption was seen; if [net.Listen] fails nothing is
    served. *)
Theorem Listener_serves_every_connection (hasCh : bool) (env : list accepted) :
  served_conns (fst (Listener true hasCh env)) = accepted_conns env /\
  Listener false hasCh env = ([], true).
Proof.
  split; [|done]. unfold Listener.
  induction env as [|[|conn interrupt] env IH]; cbn; [done| |].
  - destruct (Listener_loop hasCh env) as [acts stopped]. cbn in *. done.
  - pose proof (poll_interrupt_goes_on hasCh interrupt) as Hp.
    destruct (poll_interrupt hasCh interrupt) as [log ctl] eqn:Hpoll.
    cbn in Hp. subst ctl.
    destruct (Listener_loop hasCh env) as [acts stopped]. cbn in *.
    f_equal. unfold served_conns in *. rewrite omap_app, IH.
    unfold poll_interrupt in Hpoll. by destruct hasCh, interrupt; simplify_eq.
Qed.

(** X20: on a writer that takes the command, [NewDB] succeeds exactly when
    the first value it reads is the version 1; on any other version [v] it
    fails with "returned version v, expected 1", and on anything else with
    the error of the decoder.  In each case it has written one [Version]
    command and nothing more. *)
Theorem NewDB_accepts_only_Version (input : list token) (output : Encoder) (r : nat) :
  room output = S r ->
  (fst (Client.NewDB input output) = None
   <-> exists rest, input = TUint Version :: rest) /\
  (forall v rest, input = TUint v :: rest -> 0 <= v < two64 -> v <> Version ->
     fst (Client.NewDB input output)
     = Some (Errorf ("returned version " +:+ pretty v +:+ ", expected 1"))) /\
  written (Client.out (snd (Client.NewDB input output)))
  = written output ++ [TUint (tag CmdVersion)].
Proof.
  intros Hr. unfold Client.NewDB, Client.client_encode, Encode. cbn. rewrite Hr.
  unfold Client.client_decode, Decode_uint64, Decode_uint. cbn.
  destruct input as [|[v| | |] rest]; cbn.
  2: destruct (decide (0 <= v < two64)) as [Hv|Hv]; cbn;
     [destruct (decide (v = Version)) as [->|Hne]; cbn|].
  all: split; [|split; [|done]].
  all: try (split; [done|intros [rest' [=]]]; fail).
  all: try (intros v' rest' [=]; fail).
  - split; [eauto|done].
  - intros v' rest' [= <- <-] _ Hne. done.
  - split; [done|]. intros [rest' [= ->]]. done.
  - intros v' rest' [= <- <-] _ _. done.
  - split; [done|]. intros [rest' [= -> _]]. unfold Version, two64 in Hv. lia.
  - intros v' rest' [= <- <-] Hv' _. done.
Qed.

Section PoolProperties.
Import Pool.
Context {R : Type}.

Lemma pool_ok_Take (r : R) (p : @pool R) (hand : list (@Coder R)) :
  pool_ok p hand ->
  pool_ok (snd (newDecoder r p)) (hand ++ [fst (newDecoder r p)]).
Proof.
  intros (Hcap & Hnd & Hall). unfold newDecoder, pool_ok.
  destruct (chan p) as [|d rest] eqn:Hchan; cbn in *.
  - split; [lia|]. rewrite fmap_app in *. cbn. split.
    + apply NoDup_app. split; [done|]. split; [|apply NoDup_singleton].
      intros i Hi ->%list_elem_of_singleton.
      apply list_elem_of_fmap in Hi as (d & Hd & Hin).
      rewrite Forall_forall in Hall. apply Hall in Hin. lia.
    + apply Forall_app. split.
      * eapply Forall_impl; [exact Hall|]. cbn. intros; lia.
      * apply Forall_singleton. cbn. lia.
  - split; [lia|]. split.
    + rewrite fmap_app in Hnd. rewrite !fmap_app. cbn.
      eapply NoDup_Permutation_proper; [|exact Hnd].
      rewrite app_assoc. symmetry. apply Permutation_cons_append.
    + apply Forall_cons in Hall as [Hd Hall].
      rewrite app_assoc. apply Forall_app. split; [done|].
      by apply Forall_singleton.
Qed.

Lemma pool_ok_GiveBack (i : nat) (d : @Coder R) (p : @pool R)
    (hand : list (@Coder R)) :
  hand !! i = Some d ->
  pool_ok p hand ->
  pool_ok (returnDecoderToPool d p) (delete i hand).
Proof.
  intros Hi (Hcap & Hnd & Hall).
  pose proof (take_drop_middle hand i d Hi) as Hhand.
  rewrite delete_take_drop. unfold returnDecoderToPool, pool_ok.
  rewrite <- Hhand in Hnd, Hall.
  destruct (decide (length (chan p) < capacity)%nat) as [Hlt|Hge]; cbn.
  - rewrite length_app. cbn. split; [lia|]. split.
    + assert ((chan p ++ [d]) ++ take i hand ++ drop (S i) hand
              ≡ₚ chan p ++ take i hand ++ d :: drop (S i) hand) as ->; [|done].
      rewrite <- app_assoc. cbn. apply Permutation_app_head, Permutation_middle.
    + rewrite !Forall_app, Forall_cons in Hall. rewrite !Forall_app, Forall_singleton.
      tauto.
  - split; [done|]. split.
    + eapply sublist_NoDup; [exact Hnd|].
      apply fmap_sublist. apply sublist_app; [done|].
      apply sublist_app; [done|]. by apply sublist_cons.
    + rewrite !Forall_app, Forall_cons in Hall. rewrite !Forall_app. tauto.
Qed.

Lemma pool_ok_uses (l : list (@use R)) :
  forall (p : @pool R) (hand : list (@Coder R)),
  pool_ok p hand -> pool_ok (fst (uses l p hand)) (snd (uses l p hand)).
Proof.
  induction l as [|[r|i] l IH]; intros p hand Hok; cbn [uses]; [done| |].
  - pose proof (pool_ok_Take r p hand Hok) as Hok'.
    destruct (newDecoder r p) as [d p']. by apply IH.
  - destruct (hand !! i) as [d|] eqn:Hi; [|by apply IH].
    apply IH. by apply pool_ok_GiveBack.
Qed.

(** X21: whatever the order in which decoders (or encoders) are taken from
    a pool and given back, the channel never holds more than 128 of them, no
    object is at once in the channel and in use or in use twice, and an
    object taken is set on the stream it was asked for. *)
Theorem pool_bounded_and_exclusive (l : list (@use R)) :
  pool_ok (fst (uses l empty_pool [])) (snd (uses l empty_pool [])) /\
  (forall (r : R) (p : @pool R), stream (fst (newDecoder r p)) = r).
Proof.
  split.
  - apply pool_ok_uses. unfold pool_ok, empty_pool, capacity. cbn.
    split; [lia|]. split; [apply NoDup_nil_2|apply Forall_nil_2].
  - intros r p. unfold newDecoder. by destruct (chan p).
Qed.

End PoolProperties.

(** * The further properties at work on the in-memory store *)
Section MoreWitnesses.
Import MemStore Scenario MoreScenarios.

Lemma unknown_command_fatal_witness :
  step (new_session (H:=mem) testdb [TUint 9] unlimited)
  = Return (Some (if decide (0 <= 9 < 256)
                  then Errorf ("unknown command " +:+ pretty 9)
                  else decode_error))
           (set_decoder [] (new_session (H:=mem) testdb [TUint 9] unlimited)).
Proof.
  apply (unknown_command_fatal (H:=mem) (new_session (H:=mem) testdb [TUint 9] unlimited) 9 []).
  - reflexivity.
  - lia.
Defined.

Lemma argument_decode_error_fatal_witness :
  step (new_session (H:=mem) testdb [TUint 3; TBad] unlimited)
  = Return (Some decode_error)
           (set_decoder (snd (Decode_uint64 [TBad]))
              (new_session (H:=mem) testdb [TUint 3; TBad] unlimited)).
Proof.
  refine (proj1 (argument_decode_error_fatal (H:=mem)
                   (new_session (H:=mem) testdb [TUint 3; TBad] unlimited) decode_error)
            CmdEndTx [TBad] _ _ _).
  - apply list_elem_of_here.
  - reflexivity.
  - reflexivity.
Defined.

Lemma reply_has_fixed_shape_witness :
  shape <$> reply unknown_get (after 1 unknown_get) = reply_shape CmdGet.
Proof.
  apply (reply_has_fixed_shape (H:=mem) CmdGet unknown_get (after 1 unknown_get)).
  - discriminate.
  - vm_compute. reflexivity.
  - vm_compute. reflexivity.
Defined.

Lemma write_error_fatal_witness :
  exists err s',
    step (new_session (H:=mem) testdb [TUint 0] full_writer) = Return (Some err) s' /\
    written (encoder s') = written (encoder (new_session (H:=mem) testdb [TUint 0] full_writer)).
Proof.
  apply (write_error_fatal (H:=mem) CmdVersion (new_session (H:=mem) testdb [TUint 0] full_writer)).
  - reflexivity.
  - discriminate.
  - reflexivity.
Defined.

Lemma open_transactions_rolled_back_witness :
  exists s_last,
    run_deferred (after 2 (new_session (H:=mem) testdb [TUint 2] unlimited))
    = run_deferred s_last /\
    (forall h tx, transactions s_last !! h = Some tx -> tx ∈ deferred s_last) /\
    db (run_deferred (after 2 (new_session (H:=mem) testdb [TUint 2] unlimited)))
    = foldl (fun d tx => snd (tx_Rollback tx d)) (db s_last) (deferred s_last).
Proof.
  apply (open_transactions_rolled_back (H:=mem) testdb [TUint 2] unlimited None
           (run_deferred (after 2 (new_session (H:=mem) testdb [TUint 2] unlimited)))).
  vm_compute. reflexivity.
Defined.

Lemma reading_changes_no_table_witness :
  same_tables unknown_get (after 1 unknown_get).
Proof.
  refine (proj1 (reading_changes_no_table (H:=mem) CmdGet unknown_get
                   (after 1 unknown_get) _ _) _).
  - vm_compute. reflexivity.
  - vm_compute. reflexivity.
  - apply list_elem_of_further, list_elem_of_further, list_elem_of_here.
Defined.

Lemma LastError_reports_previous_witness :
  exists s2,
    step (after 1 unknown_get) = Continue s2 /\
    reply (after 1 unknown_get) s2
    = [TText (Sprintf_v (lastError_after CmdGet
                           (set_decoder [TUint 9; TBytes None; TUint 1] unknown_get)))] /\
    lastError s2 = lastError (after 1 unknown_get).
Proof.
  apply (LastError_reports_previous (H:=mem) CmdGet unknown_get (after 1 unknown_get)
           (TUint 5) [TUint 9; TBytes None; TUint 1] []).
  - vm_compute. reflexivity.
  - vm_compute. reflexivity.
  - vm_compute. reflexivity.
  - vm_compute. reflexivity.
  - vm_compute. discriminate.
Defined.

Lemma Get_nil_is_ambiguous_witness :
  exists s',
    step unknown_get = Continue s' /\
    reply unknown_get s' = [TBytes None] /\
    lastError s' = match buckets unknown_get !! 9 with
                   | Some _ => None
                   | None => Some (Errorf "bucket not found")
                   end.
Proof.
  apply (Get_nil_is_ambiguous (H:=mem) unknown_get 9 None [TUint 1]).
  - vm_compute. reflexivity.
  - unfold two64. lia.
  - vm_compute. discriminate.
  - vm_compute. exact I.
Defined.

Lemma Next_loop_resumes_witness :
  Next_loop (1 + 1) data_cursor unlimited
  = match Next_loop 1 data_cursor unlimited with
    | (None, cursor1, e1) => Next_loop 1 cursor1 e1
    | r => r
    end.
Proof.
  apply (Next_loop_resumes (H:=mem) 1 1 data_cursor unlimited).
  vm_compute. repeat constructor. eexists. reflexivity.
Defined.

Lemma Get_through_new_handle_witness :
  goes_on 2 begun_get = true /\
  written (encoder (after 2 begun_get))
  = written (encoder begun_get)
    ++ [TUint (incr64 (lastHandle begun_get));
        TBytes (bucket_Get [(b "a", b "1"); (b "b", b "2"); (b "c", b "3")]
                  (Some (b "a")))] /\
  lastError (after 2 begun_get) = None /\
  decoder (after 2 begun_get) = [].
Proof.
  apply (Get_through_new_handle (H:=mem) begun_get 1 (Some (b "data")) (Some (b "a"))
           (content testdb) [(b "a", b "1"); (b "b", b "2"); (b "c", b "3")] []).
  - vm_compute. reflexivity.
  - unfold two64. lia.
  - vm_compute. reflexivity.
  - vm_compute. reflexivity.
  - vm_compute. lia.
Defined.

Lemma Cursor_Seek_Next_walks_bucket_witness :
  exists (k : nat) (pairs : list (gobytes * gobytes)) (cursor2 : memcursor),
    goes_on 3 bucket_walk = true /\
    advance k (snd (cursor_Seek
                      (bucket_Cursor [(b "a", b "1"); (b "b", b "2"); (b "c", b "3")])
                      (Some []))) = (pairs, cursor2) /\
    written (encoder (after 3 bucket_walk))
    = written (encoder bucket_walk)
      ++ [TUint (incr64 (lastHandle bucket_walk));
          TBytes (fst (fst (cursor_Seek
                    (bucket_Cursor [(b "a", b "1"); (b "b", b "2"); (b "c", b "3")])
                    (Some []))));
          TBytes (snd (fst (cursor_Seek
                    (bucket_Cursor [(b "a", b "1"); (b "b", b "2"); (b "c", b "3")])
                    (Some []))))]
      ++ pair_tokens pairs /\
    length pairs = k /\
    (1 <= k <= Z.to_nat 5)%nat /\
    (forall i kv, pairs !! i = Some kv -> (S i < k)%nat -> is_Some (fst kv)) /\
    ((k < Z.to_nat 5)%nat -> exists v, last pairs = Some (None, v)) /\
    cursors (after 3 bucket_walk) !! incr64 (lastHandle bucket_walk) = Some cursor2 /\
    lastError (after 3 bucket_walk) = None.
Proof.
  apply (Cursor_Seek_Next_walks_bucket (H:=mem) bucket_walk 2 5 (Some [])
           [(b "a", b "1"); (b "b", b "2"); (b "c", b "3")] []).
  - vm_compute. reflexivity.
  - unfold two64. lia.
  - unfold two64. lia.
  - vm_compute. reflexivity.
  - vm_compute. lia.
Defined.

Lemma EndTx_removes_only_descendants_witness :
  lastHandle (cascade_after 4) = lastHandle (cascade_after 3).
Proof.
  refine (proj2 (proj2 (proj2 (proj2
            (EndTx_removes_only_descendants (H:=mem) (cascade_after 3) (cascade_after 4)
               1 (content testdb) [TUint 0; TUint 7; TUint 3; TBytes (Some [])]
               _ _ _))))).
  - vm_compute. reflexivity.
  - vm_compute. reflexivity.
  - vm_compute. reflexivity.
Defined.

Lemma handles_name_one_resource_witness :
  tables_fresh (cascade_after 3) /\ ~ registered (cascade_after 3) 0.
Proof.
  apply (handles_name_one_resource (H:=mem) testdb cascade unlimited (cascade_after 3)).
  - vm_compute. reflexivity.
  - apply after_steps. vm_compute. reflexivity.
Defined.

Lemma no_bucket_without_transaction_witness :
  no_orphans (cascade_after 3) /\
  (transactions (cascade_after 3) = ∅ ->
   buckets (cascade_after 3) = ∅ /\ cursors (cascade_after 3) = ∅).
Proof.
  apply (no_bucket_without_transaction (H:=mem) testdb cascade unlimited (cascade_after 3)).
  apply after_steps. vm_compute. reflexivity.
Defined.

Lemma created_is_recorded_witness :
  is_Some (buckets (after 1 begun_get) !! lastHandle (after 1 begun_get)) /\
  exists l, bucketsByTx (after 1 begun_get) !! 1 = Some l /\
            lastHandle (after 1 begun_get) ∈ l.
Proof.
  refine (proj1 (created_is_recorded (H:=mem) begun_get (after 1 begun_get) _ _)
            1 [TBytes (Some (b "data")); TUint 5; TUint 2; TBytes (Some (b "a"))] _).
  - vm_compute. reflexivity.
  - vm_compute. reflexivity.
  - vm_compute. reflexivity.
Defined.

Lemma View_against_Server_witness :
  exists sf,
    Server (H:=mem) testdb [TUint (tag CmdBeginTx); TUint (tag CmdEndTx); TUint 1]
           {| written := []; room := 1 |} = Some (None, sf) /\
    written (encoder sf) = [TUint 1] /\
    transactions sf = ∅ /\
    lastError sf = None /\
    db sf = snd (tx_Rollback (content testdb) testdb) /\
    Client.View (fun _ c => (None, c))
      {| Client.in_ := written (encoder sf);
         Client.out := {| written := []; room := 3 |} |}
    = (None,
       {| Client.in_ := [];
          Client.out := {| written := [TUint (tag CmdBeginTx); TUint (tag CmdEndTx);
                                       TUint 1];
                           room := 0 |} |}).
Proof.
  apply (View_against_Server (H:=mem) testdb testdb testdb (content testdb) None 0).
  - reflexivity.
  - reflexivity.
Defined.

Lemma View_against_Server_begin_error_witness :
  exists sf,
    Server (H:=mem) closeddb [TUint (tag CmdBeginTx); TUint (tag CmdLastError)]
           {| written := []; room := 2 |} = Some (None, sf) /\
    written (encoder sf)
    = [TUint 0; TText (Sprintf_v (Some (Errorf "database not open")))] /\
    transactions sf = ∅ /\
    db sf = closeddb /\
    Client.View (fun _ c => (None, c))
      {| Client.in_ := written (encoder sf);
         Client.out := {| written := []; room := 2 |} |}
    = (Some (Errorf (Sprintf_v (Some (Errorf "database not open")))),
       {| Client.in_ := [];
          Client.out := {| written := [TUint (tag CmdBeginTx); TUint (tag CmdLastError)];
                           room := 0 |} |}).
Proof.
  apply (View_against_Server_begin_error (H:=mem) closeddb closeddb
           (Errorf "database not open") (fun _ c => (None, c)) 0).
  reflexivity.
Defined.

Lemma NewDB_accepts_only_Version_witness :
  (fst (Client.NewDB [TUint 1] unlimited) = None
   <-> exists rest, [TUint 1] = TUint Version :: rest) /\
  (forall v rest, [TUint 1] = TUint v :: rest -> 0 <= v < two64 -> v <> Version ->
     fst (Client.NewDB [TUint 1] unlimited)
     = Some (Errorf ("returned version " +:+ pretty v +:+ ", expected 1"))) /\
  written (Client.out (snd (Client.NewDB [TUint 1] unlimited)))
  = written unlimited ++ [TUint (tag CmdVersion)].
Proof.
  apply (NewDB_accepts_only_Version [TUint 1] unlimited 999).
  reflexivity.
Defined.


Lemma EndTx_releases_descendants_witness :
  lastError (two_buckets_after 6) = Some (Errorf "bucket not found") /\
  lastError (two_buckets_after 7) = Some (Errorf "cursor not found").
Proof.
  pose proof (EndTx_releases_descendants (H:=mem) testdb two_buckets unlimited
                (two_buckets_after 4) 1 (content testdb)
                [TUint 5; TUint 4; TBytes (Some (b "a"));
                 TUint 7; TUint 3; TBytes (Some [])]
                ltac:(vm_compute; reflexivity)
                ltac:(apply after_steps; vm_compute; reflexivity)
                ltac:(vm_compute; reflexivity)
                ltac:(vm_compute; reflexivity)) as Hthm.
  cbv zeta in Hthm.
  change (tx_Rollback (Store:=mem) (content testdb) (db (two_buckets_after 4)))
    with (@None error, db (two_buckets_after 4)) in Hthm.
  destruct Hthm as (s1 & -> & _ & _ & _ & _ & Hlater).
  assert (bucket_of (new_session testdb two_buckets unlimited) 1 4
            (two_buckets_after 4)) as Hb4.
  { exists (two_buckets_after 3), (two_buckets_after 4), (skipn 8 two_buckets).
    split; [apply after_steps; vm_compute; reflexivity|].
    split; [vm_compute; reflexivity|].
    split; [vm_compute; reflexivity|].
    split; [vm_compute; reflexivity|apply rtc_refl]. }
  assert (bucket_of (new_session testdb two_buckets unlimited) 1 2
            (two_buckets_after 4)) as Hb2.
  { exists (two_buckets_after 1), (two_buckets_after 2), (skipn 3 two_buckets).
    split; [apply after_steps; vm_compute; reflexivity|].
    split; [vm_compute; reflexivity|].
    split; [vm_compute; reflexivity|].
    split; [vm_compute; reflexivity|].
    apply (steps_between 2 2). vm_compute. reflexivity. }
  assert (cursor_of_bucket (new_session testdb two_buckets unlimited) 2 3
            (two_buckets_after 4)) as Hc3.
  { exists (two_buckets_after 2), (two_buckets_after 3), (skipn 6 two_buckets).
    split; [apply after_steps; vm_compute; reflexivity|].
    split; [vm_compute; reflexivity|].
    split; [vm_compute; reflexivity|].
    split; [vm_compute; reflexivity|].
    apply (steps_between 3 1). vm_compute. reflexivity. }
  split.
  + destruct (Hlater _ (rtc_refl _ _)) as (_ & Hget & _).
    apply (Hget 4 CmdGet [TBytes (Some (b "a")); TUint 7; TUint 3; TBytes (Some [])]
             (two_buckets_after 6) Hb4).
    * apply list_elem_of_here.
    * vm_compute. reflexivity.
    * vm_compute. reflexivity.
  + destruct (Hlater (two_buckets_after 6)) as (_ & _ & Hseek).
    { eapply rtc_l; [|apply rtc_refl]. vm_compute. reflexivity. }
    apply (Hseek 2 3 CmdSeek [TBytes (Some [])] (two_buckets_after 7) Hb2 Hc3).
    * apply list_elem_of_here.
    * vm_compute. reflexivity.
    * vm_compute. reflexivity.
Defined.

End MoreWitnesses.
